(** * Earley recognizer ([parser.py]): shallow embedding and verification

    The Python module builds, for a context-free grammar and a list of
    tokens, the table of Earley states and inspects the last one.  The
    embedding follows the source function by function:

    - an [Item] is the named tuple [Item(lhs, done, rest, i)];
    - a [Grammar] is the named tuple [Grammar(rules, terminals, start)];
    - a Python [set] of items is the list of its elements in insertion
      order, together with an iteration order [set_iter] that is left
      abstract (any permutation of the elements);
    - a Python exception is a [Raise] result; the [while] loop takes fuel;
    - the caller's token list is a mutable object: [earley_table] and
      [recognizer] return, next to their result, what that object holds
      after the call. *)

From Stdlib Require Import Ascii String List Arith Bool Lia Permutation.
From Stdlib Require DecimalString.
Import ListNotations.

Local Open Scope string_scope.
Local Open Scope list_scope.

(** ** Results of a Python call *)

Inductive exn : Type :=
| IndexError.

Inductive result (A : Type) : Type :=
| Ok (a : A)
| Raise (e : exn)
| OutOfFuel.

Arguments Ok {A} a.
Arguments Raise {A} e.
Arguments OutOfFuel {A}.

Definition bind {A B : Type} (m : result A) (k : A -> result B) : result B :=
  match m with
  | Ok a => k a
  | Raise e => Raise e
  | OutOfFuel => OutOfFuel
  end.

Notation "x <- m ;; k" := (bind m (fun x => k))
  (at level 61, m at next level, right associativity).
Notation "' pat <- m ;; k" := (bind m (fun x => match x with pat => k end))
  (at level 61, pat pattern, m at next level, right associativity).

(** A list comprehension whose element expression is a call. *)
Fixpoint map_result {A B : Type} (f : A -> result B) (l : list A)
  : result (list B) :=
  match l with
  | [] => Ok []
  | a :: l' => b <- f a ;; bs <- map_result f l' ;; Ok (b :: bs)
  end.

(** [xs[k]] for a list and a non-negative index. *)
Definition subscript {A : Type} (xs : list A) (k : nat) : result A :=
  match nth_error xs k with
  | Some x => Ok x
  | None => Raise IndexError
  end.

(** [xs[-1]]. *)
Definition subscript_last {A : Type} (xs : list A) : result A :=
  match rev xs with
  | x :: _ => Ok x
  | [] => Raise IndexError
  end.

(** ** Data model *)

(** A [string] stands for a Python [str] as the sequence of its
    characters, one [ascii] for each character (a character is given by
    its code, below 256), so that [String.length] is [len]. *)
Definition Symbol : Type := string.
Definition Token : Type := string.
Definition Rule : Type := (Symbol * list Symbol)%type.

(** [Item = namedtuple('Item', 'lhs done rest i')] *)
Record Item : Type := mkItem {
  lhs : Symbol;
  done : list Symbol;
  rest : list Symbol;
  i : nat
}.

(** [grammar.terminals] is only ever used on the right of [in].  The tests
    of the module pass a [str] (so [in] is the substring test); a list, a
    tuple or a set of symbols gives the membership test. *)
Inductive Terminals : Type :=
| TermStr (s : string)
| TermColl (l : list Symbol).

(** [Grammar = namedtuple('Grammar', 'rules terminals start')] *)
Record Grammar : Type := mkGrammar {
  rules : list Rule;
  terminals : Terminals;
  start : Symbol
}.

(** [x in c] *)
Definition contains (x : Symbol) (c : Terminals) : bool :=
  match c with
  | TermStr s => match index 0 x s with Some _ => true | None => false end
  | TermColl l => existsb (String.eqb x) l
  end.

(** Equality of named tuples is equality of all four fields. *)
Definition Item_eq_dec (a b : Item) : {a = b} + {a <> b}.
Proof.
  decide equality.
  - apply Nat.eq_dec.
  - apply (list_eq_dec string_dec).
  - apply (list_eq_dec string_dec).
  - apply string_dec.
Defined.

(** A state is a [set] of items, kept as the list of its elements in the
    order in which [state.add] inserted them. *)
Definition State : Type := list Item.
Definition Table : Type := list State.

(** ** Items *)

(** [initial_item(rule, i)] *)
Definition initial_item (rule : Rule) (k : nat) : Item :=
  let '(l, rhs) := rule in
  mkItem l [] rhs k.

(** [predictions(item, grammar, i)] *)
Definition predictions (item : Item) (grammar : Grammar) (k : nat) : list Item :=
  match rest item with
  | [] => []
  | s :: _ =>
      if contains s (terminals grammar) then []
      else map (fun rule => initial_item rule k)
               (filter (fun rule => String.eqb (fst rule) s) (rules grammar))
  end.

(** [advance(item)]: the slices [rest[0:1]] and [rest[1:]] are defined for
    every tuple, the empty one included. *)
Definition advance (item : Item) : result Item :=
  let '(mkItem l d r k) := item in
  Ok (mkItem l (d ++ firstn 1 r) (skipn 1 r) k).

(** The condition of the comprehension in [completions]:
    [prev.rest != () and prev.rest[0] == item.lhs]. *)
Definition waits_for (item prev : Item) : bool :=
  match rest prev with
  | [] => false
  | s :: _ => String.eqb s (lhs item)
  end.

(** The condition in [final_item]:
    [item.lhs == grammar.start and item.i == 0 and item.rest == ()]. *)
Definition is_final (grammar : Grammar) (item : Item) : bool :=
  String.eqb (lhs item) (start grammar)
  && Nat.eqb (i item) 0
  && match rest item with [] => true | _ :: _ => false end.

Section SetIteration.

(** The order in which [for x in s] visits a set [s], as a function of the
    insertion history of [s]. *)
Variable set_iter : State -> list Item.

(** [completions(item, states)] *)
Definition completions (item : Item) (states : Table) : result (list Item) :=
  st <- subscript states (i item) ;;
  map_result advance (filter (waits_for item) (set_iter st)).

(** One pass through the body of [while items:], with [item] already popped
    from the front of the worklist.  The loop variables are the worklist
    [items], the [state] under construction and [next_items]. *)
Definition process_item (grammar : Grammar) (states : Table) (pos : nat)
    (t : Token) (item : Item) (items : list Item) (state : State)
    (next_items : list Item) : result (list Item * State * list Item) :=
  if in_dec Item_eq_dec item state then Ok (items, state, next_items)
  else
    let state := state ++ [item] in
    match rest item with
    | [] =>
        c <- completions item states ;;
        Ok (items ++ c, state, next_items)
    | s :: _ =>
        if contains s (terminals grammar) && String.eqb s t then
          a <- advance item ;;
          Ok (items, state, next_items ++ [a])
        else
          Ok (items ++ predictions item grammar pos, state, next_items)
    end.

(** [while items: item = items.pop(0); ...]; one unit of fuel per pass. *)
Fixpoint while_items (fuel : nat) (grammar : Grammar) (states : Table)
    (pos : nat) (t : Token) (items : list Item) (state : State)
    (next_items : list Item) : result (State * list Item) :=
  match items with
  | [] => Ok (state, next_items)
  | item :: items' =>
      match fuel with
      | 0 => OutOfFuel
      | S fuel' =>
          '(items'', state', next_items') <-
            process_item grammar states pos t item items' state next_items ;;
          while_items fuel' grammar states pos t items'' state' next_items'
      end
  end.

(** [for i,t in enumerate(tokens):] from position [pos] on. *)
Fixpoint for_tokens (fuel : nat) (grammar : Grammar) (tokens : list Token)
    (pos : nat) (states : Table) (next_items : list Item) : result Table :=
  match tokens with
  | [] => Ok states
  | t :: tokens' =>
      '(state, next_items') <-
        while_items fuel grammar states pos t next_items [] [] ;;
      for_tokens fuel grammar tokens' (S pos) (states ++ [state]) next_items'
  end.

(** [earley_table(grammar, tokens)].  [tokens += [""]] extends the list
    object the caller passed; the second component is the content of that
    object when the call ends, normally or not. *)
Definition earley_table (fuel : nat) (grammar : Grammar) (tokens : list Token)
  : result Table * list Token :=
  let states := [] in
  let next_items :=
    map (fun rule => initial_item rule 0)
        (filter (fun rule => String.eqb (fst rule) (start grammar))
                (rules grammar)) in
  let tokens := tokens ++ [""] in
  (for_tokens fuel grammar tokens 0 states next_items, tokens).

(** [final_item(states, grammar)] *)
Definition final_item (states : Table) (grammar : Grammar)
  : result (option Item) :=
  st <- subscript_last states ;;
  Ok (find (is_final grammar) (set_iter st)).

(** [recognizer(grammar, tokens)] *)
Definition recognizer (fuel : nat) (grammar : Grammar) (tokens : list Token)
  : result bool * list Token :=
  let '(r, tokens) := earley_table fuel grammar tokens in
  (states <- r ;;
   found <- final_item states grammar ;;
   Ok (match found with Some _ => true | None => false end),
   tokens).

End SetIteration.

(** ** Pretty printing *)

(** ["%d" % n] for a non-negative [n]. *)
Definition format_d (n : nat) : string :=
  DecimalString.NilZero.string_of_uint (Nat.to_uint n).

(** [" " * n] *)
Fixpoint spaces (n : nat) : string :=
  match n with
  | 0 => ""
  | S n' => " " ++ spaces n'
  end.

(** ["%-12s" % s]: [s], then spaces up to a width of 12. *)
Definition format_ljust12 (s : string) : string :=
  s ++ spaces (12 - String.length s).

(** [itemstring(item)]:
    ["(%d) %-12s -> %s . %s" % (i, lhs, ' '.join(a), ' '.join(b))] *)
Definition itemstring (item : Item) : string :=
  let '(mkItem l a b k) := item in
  "(" ++ format_d k ++ ") " ++ format_ljust12 l ++ " -> "
  ++ String.concat " " a ++ " . " ++ String.concat " " b.

(** The newline character, and what [print(x)] writes to standard
    output: [x] and a newline. *)
Definition newline : string := String "010"%char EmptyString.

Definition print (x : string) : string := x ++ newline.

(** [print_states(states)]: the text written to standard output, from the
    state of position [k] on.  [visit] is the order in which
    [for item in state] visits a state. *)
Fixpoint print_states_from (visit : State -> list Item) (k : nat)
    (states : Table) : string :=
  match states with
  | [] => ""
  | state :: states' =>
      print ("=== " ++ format_d k ++ " ===")
      ++ String.concat "" (map (fun item => print (itemstring item))
                               (visit state))
      ++ print ""
      ++ print_states_from visit (S k) states'
  end.

Definition print_states (visit : State -> list Item) (states : Table)
  : string :=
  print_states_from visit 0 states.

(** Iteration in insertion order, used to run the model. *)
Definition insertion_order (s : State) : list Item := s.

(** Iteration from the last inserted element back to the first. *)
Definition reverse_order (s : State) : list Item := rev s.

(** ** Grammars

    [simple_grammar] and [ab_grammar] are the two grammars of the module's
    tests. *)

Definition simple_grammar : Grammar :=
  mkGrammar
    [("sum", ["sum"; "+"; "product"]);
     ("sum", ["product"]);
     ("product", ["product"; "*"; "factor"]);
     ("product", ["factor"]);
     ("factor", ["("; "sum"; ")"]);
     ("factor", ["number"]);
     ("number", ["0"]);
     ("number", ["1"])]
    (TermStr "01+*()")
    "sum".

Definition ab_grammar : Grammar :=
  mkGrammar [("a", ["b"]); ("b", ["0"])] (TermStr "0") "a".

(** The grammar with the single rule [s -> (empty)]. *)
Definition epsilon_grammar : Grammar :=
  mkGrammar [("s", [])] (TermColl []) "s".

(** The ambiguous grammar [s -> s s s | s s | x]. *)
Definition ambiguous_grammar : Grammar :=
  mkGrammar [("s", ["s"; "s"; "s"]); ("s", ["s"; "s"]); ("s", ["x"])]
            (TermColl ["x"]) "s".

(** The table of [ab_grammar] on the token [0]. *)
Definition ab_table : Table :=
  [[mkItem "a" [] ["b"] 0; mkItem "b" [] ["0"] 0];
   [mkItem "b" ["0"] [] 0; mkItem "a" ["b"] [] 0]].

(** ** Vocabulary of the statements *)

(** The item [advance] builds. *)
Definition advanced (item : Item) : Item :=
  mkItem (lhs item) (done item ++ firstn 1 (rest item)) (skipn 1 (rest item))
         (i item).

(** [item] is a rule of the grammar with a dot in its right-hand side. *)
Definition dotted (grammar : Grammar) (item : Item) : Prop :=
  In (lhs item, done item ++ rest item) (rules grammar).

(** The items that can occur while position [pos] is processed: dotted
    rules that started at or before [pos], with nothing matched yet when
    they started at [pos] itself. *)
Definition item_at (grammar : Grammar) (pos : nat) (item : Item) : Prop :=
  dotted grammar item /\ i item <= pos /\ (i item = pos -> done item = []).

Definition state_at (grammar : Grammar) (pos : nat) (st : State) : Prop :=
  NoDup st /\ Forall (item_at grammar pos) st.

(** A property of every state of a table, given its position. *)
Definition table_all (P : nat -> State -> Prop) (states : Table) : Prop :=
  forall j st, nth_error states j = Some st -> P j st.

Definition table_ok (grammar : Grammar) (states : Table) : Prop :=
  table_all (state_at grammar) states.

(** A complete item in the state of position [pos] started before [pos]. *)
Definition settled (pos : nat) (st : State) : Prop :=
  Forall (fun item => rest item = [] -> i item < pos) st.

(** Every dotted rule with every origin up to [pos]. *)
Definition rule_items (rule : Rule) (pos : nat) : list Item :=
  flat_map
    (fun d => map (mkItem (fst rule) (firstn d (snd rule)) (skipn d (snd rule)))
                  (seq 0 (S pos)))
    (seq 0 (S (length (snd rule)))).

Definition item_space (grammar : Grammar) (pos : nat) : list Item :=
  flat_map (fun rule => rule_items rule pos) (rules grammar).

(** The number of dotted rules: each rule counts once for each place of
    the dot, [len(rhs) + 1] of them. *)
Definition dotted_rules (grammar : Grammar) : nat :=
  list_sum (map (fun rule : Rule => S (length (snd rule))) (rules grammar)).

(** The invariant of [while items:] at position [pos]. *)
Definition loop_inv (grammar : Grammar) (pos : nat) (items : list Item)
    (state : State) (next_items : list Item) : Prop :=
  Forall (item_at grammar pos) items
  /\ state_at grammar pos state
  /\ Forall (item_at grammar (S pos)) next_items.

Definition epsilon_free (grammar : Grammar) : Prop :=
  forall rule, In rule (rules grammar) -> snd rule <> [].

(** [item] is scanned by the lookahead [t]: its next symbol is in
    [grammar.terminals] and equals [t]. *)
Definition scans (grammar : Grammar) (t : Token) (item : Item) : Prop :=
  exists s r,
    rest item = s :: r /\ contains s (terminals grammar) = true /\ s = t.

(** The items that processing [item] at position [pos] puts on the
    worklist: the advanced parents of a complete item, read from
    [states[item.i]], and the initial items of the rules for the next
    symbol of an item that [grammar.terminals] does not contain. *)
Inductive pushes (grammar : Grammar) (states : Table) (pos : nat)
    (item : Item) : Item -> Prop :=
| pushes_completion (st : State) (prev : Item) :
    rest item = [] ->
    nth_error states (i item) = Some st ->
    In prev st ->
    waits_for item prev = true ->
    pushes grammar states pos item (advanced prev)
| pushes_prediction (s : Symbol) (r : list Symbol) (rule : Rule) :
    rest item = s :: r ->
    contains s (terminals grammar) = false ->
    In rule (rules grammar) ->
    fst rule = s ->
    pushes grammar states pos item (initial_item rule pos).

(** The closure of the seed of a position under [pushes]. *)
Inductive reachable (grammar : Grammar) (states : Table) (pos : nat)
    (seed : list Item) : Item -> Prop :=
| reachable_seed (x : Item) :
    In x seed -> reachable grammar states pos seed x
| reachable_push (x y : Item) :
    reachable grammar states pos seed x ->
    pushes grammar states pos x y ->
    reachable grammar states pos seed y.

(** The worklist holds nothing but reachable items and loses none. *)
Definition closure_inv (grammar : Grammar) (states : Table) (pos : nat)
    (t : Token) (seed items : list Item) (state : State)
    (next_items : list Item) : Prop :=
  (forall x, In x items \/ In x state -> reachable grammar states pos seed x)
  /\ (forall y, In y next_items ->
        exists item, In item state /\ scans grammar t item
                     /\ y = advanced item)
  /\ (forall x, In x seed -> In x items \/ In x state)
  /\ (forall x y, In x state -> pushes grammar states pos x y ->
        In y items \/ In y state)
  /\ (forall item, In item state -> scans grammar t item ->
        In (advanced item) next_items).

(** Two lists that hold the same items. *)
Definition same_set (a b : list Item) : Prop :=
  forall x, In x a <-> In x b.

(** [advance] applied [n] times in a row. *)
Fixpoint advance_times (n : nat) (item : Item) : result Item :=
  match n with
  | 0 => Ok item
  | S n' => a <- advance item ;; advance_times n' a
  end.

(** Whether a string holds a newline. *)
Fixpoint has_newline (x : string) : bool :=
  match x with
  | EmptyString => false
  | String c x' => Ascii.eqb c "010"%char || has_newline x'
  end.

(** The lines of a text: the pieces that end at each newline, and what
    follows the last newline when that is not empty. *)
Fixpoint lines (text : string) : list string :=
  match text with
  | EmptyString => []
  | String c text' =>
      if Ascii.eqb c "010"%char then EmptyString :: lines text'
      else match lines text' with
           | [] => [String c EmptyString]
           | l :: ls => String c l :: ls
           end
  end.

(** No symbol of the item holds a newline. *)
Definition newline_free (item : Item) : Prop :=
  has_newline (lhs item) = false
  /\ Forall (fun s => has_newline s = false) (done item)
  /\ Forall (fun s => has_newline s = false) (rest item).

(** ** The language of a grammar *)

(** [derives grammar beta w]: the symbols [beta] rewrite to the tokens [w].
    A symbol that [grammar.terminals] contains stands for the token equal
    to it; a symbol that heads a rule rewrites to what the right-hand side
    of the rule rewrites to. *)
Inductive derives (grammar : Grammar) : list Symbol -> list Token -> Prop :=
| derives_nil : derives grammar [] []
| derives_terminal (s : Symbol) (beta : list Symbol) (w : list Token) :
    contains s (terminals grammar) = true ->
    derives grammar beta w ->
    derives grammar (s :: beta) (s :: w)
| derives_rule (s : Symbol) (rhs beta : list Symbol) (w1 w2 : list Token) :
    In (s, rhs) (rules grammar) ->
    derives grammar rhs w1 ->
    derives grammar beta w2 ->
    derives grammar (s :: beta) (w1 ++ w2).

(** The tokens are in the language of the grammar: some rule of the start
    symbol rewrites to them. *)
Definition generates (grammar : Grammar) (tokens : list Token) : Prop :=
  exists rhs,
    In (start grammar, rhs) (rules grammar) /\ derives grammar rhs tokens.

(** No symbol that heads a rule is in [grammar.terminals]. *)
Definition rules_nonterminal (grammar : Grammar) : Prop :=
  forall rule, In rule (rules grammar) ->
               contains (fst rule) (terminals grammar) = false.

(** The tokens from position [a] up to position [b]. *)
Definition segment (tokens : list Token) (a b : nat) : list Token :=
  firstn (b - a) (skipn a tokens).

(** What an item of the state at position [k] stands for: a rule whose
    matched part rewrites to the tokens from the origin up to [k]. *)
Definition item_sound (grammar : Grammar) (tokens : list Token) (k : nat)
    (item : Item) : Prop :=
  dotted grammar item /\ i item <= k
  /\ derives grammar (done item) (segment tokens (i item) k).

(** ** The assertions of [test] and [test_example], run on the model *)

Module Tests.

Example test_initial_item :
  initial_item ("a", ["b"]) 0 = mkItem "a" [] ["b"] 0.
Proof. reflexivity. Qed.

Example test_advance :
  advance (mkItem "a" [] ["b"] 0) = Ok (mkItem "a" ["b"] [] 0).
Proof. reflexivity. Qed.

Example test_predictions :
  predictions (mkItem "a" [] ["b"] 0) ab_grammar 1 = [mkItem "b" [] ["0"] 1]
  /\ predictions (mkItem "b" [] ["0"] 0) ab_grammar 0 = [].
Proof. split; reflexivity. Qed.

Example test_completions :
  let i1 := initial_item ("a", ["b"]) 0 in
  let i2 := initial_item ("b", ["0"]) 0 in
  let i3 := mkItem "b" ["0"] [] 0 in
  completions insertion_order i3 [[i1; i2]; [i3]]
  = Ok [mkItem "a" ["b"] [] 0].
Proof. reflexivity. Qed.

Example test_example_1 :
  fst (recognizer insertion_order 100 simple_grammar
         ["0"; "+"; "1"; "+"; "1"]) = Ok true.
Proof. vm_compute. reflexivity. Qed.

Example test_example_2 :
  fst (recognizer insertion_order 100 simple_grammar
         ["1"; "*"; "("; "1"; "+"; "1"; ")"]) = Ok true.
Proof. vm_compute. reflexivity. Qed.

Example test_example_3 :
  fst (recognizer insertion_order 100 simple_grammar
         ["0"; "+"; "1"; "*"; "1"]) = Ok true.
Proof. vm_compute. reflexivity. Qed.

Example test_example_4 :
  fst (recognizer insertion_order 100 simple_grammar
         ["0"; "+"; "("; "1"; "*"; ")"]) = Ok false.
Proof. vm_compute. reflexivity. Qed.

Example test_ab :
  fst (recognizer insertion_order 100 ab_grammar ["0"]) = Ok true
  /\ fst (recognizer insertion_order 100 ab_grammar []) = Ok false.
Proof. split; vm_compute; reflexivity. Qed.

End Tests.

(** ** Items: [advance] and [predictions] *)

Lemma advance_ok (item : Item) : advance item = Ok (advanced item).
Proof. destruct item; reflexivity. Qed.

Lemma map_result_advance (l : list Item) :
  map_result advance l = Ok (map advanced l).
Proof.
  induction l as [|a l IH]; simpl; [reflexivity|].
  rewrite advance_ok, IH. reflexivity.
Qed.

(** C7: on an item whose [rest] is not empty, [advance] returns an item
    with the same [lhs] and origin, whose [done] is the old one followed by
    the first symbol of the old [rest] and whose [rest] is the old one
    without that symbol; [done + rest] is the same tuple before and after. *)
Theorem advance_moves_first_symbol (item : Item) :
  rest item <> [] ->
  exists s r a,
    rest item = s :: r /\ advance item = Ok a /\
    lhs a = lhs item /\ i a = i item /\
    done a = done item ++ [s] /\ rest a = r /\
    done a ++ rest a = done item ++ rest item.
Proof.
  destruct item as [l d [|s r] k]; simpl; intros H; [congruence|].
  exists s, r, (mkItem l (d ++ [s]) r k); simpl.
  repeat split; try reflexivity.
  rewrite <- app_assoc. reflexivity.
Qed.

(** The test of the module: [a -> . b] advances to [a -> b .]. *)
Lemma advance_moves_first_symbol_witness :
  exists s r a,
    rest (mkItem "a" [] ["b"] 0) = s :: r /\
    advance (mkItem "a" [] ["b"] 0) = Ok a /\
    lhs a = "a" /\ i a = 0 /\ done a = [] ++ [s] /\ rest a = r /\
    done a ++ rest a = [] ++ ["b"].
Proof.
  apply (@advance_moves_first_symbol (mkItem "a" [] ["b"] 0)).
  simpl. discriminate.
Defined.

(** C6 does not hold of the code: on the complete item [a -> b .] the call
    returns, and returns its argument. *)
Lemma advance_complete_item_returns :
  rest (mkItem "a" ["b"] [] 0) = []
  /\ advance (mkItem "a" ["b"] [] 0) = Ok (mkItem "a" ["b"] [] 0)
  /\ forall e, advance (mkItem "a" ["b"] [] 0) <> Raise e.
Proof. repeat split; simpl; intros; discriminate. Qed.

(** C6, amended: on an item whose [rest] is empty [advance] raises nothing;
    it returns an item equal to its argument. *)
Theorem advance_complete_item_unchanged (item : Item) :
  rest item = [] -> advance item = Ok item.
Proof.
  destruct item as [l d r k]; simpl; intros ->; simpl.
  rewrite app_nil_r. reflexivity.
Qed.

(** The complete item [b -> 0 .] with origin 3. *)
Lemma advance_complete_item_unchanged_witness :
  rest (mkItem "b" ["0"] [] 3) = []
  /\ advance (mkItem "b" ["0"] [] 3) = Ok (mkItem "b" ["0"] [] 3).
Proof.
  split; [reflexivity|].
  apply (@advance_complete_item_unchanged (mkItem "b" ["0"] [] 3)).
  reflexivity.
Defined.

(** C8: [predictions] is empty on a complete item and on an item whose next
    symbol is in [grammar.terminals]; on any other item it is, in the order
    of [grammar.rules], one item [lhs -> . rhs] with origin [k] for each
    rule whose left-hand side is the next symbol. *)
Theorem predictions_spec (item : Item) (grammar : Grammar) (k : nat) :
  (rest item = [] -> predictions item grammar k = [])
  /\ (forall s r, rest item = s :: r ->
        contains s (terminals grammar) = true ->
        predictions item grammar k = [])
  /\ (forall s r, rest item = s :: r ->
        contains s (terminals grammar) = false ->
        predictions item grammar k
        = map (fun rule => mkItem (fst rule) [] (snd rule) k)
              (filter (fun rule => String.eqb (fst rule) s) (rules grammar))).
Proof.
  unfold predictions. repeat split.
  - intros ->. reflexivity.
  - intros s r -> ->. reflexivity.
  - intros s r -> ->. apply map_ext. intros [l rhs]. reflexivity.
Qed.

(** The test of the module: [a -> . b] predicts the rule of [b]. *)
Lemma predictions_spec_witness :
  predictions (mkItem "a" [] ["b"] 0) ab_grammar 1
  = map (fun rule => mkItem (fst rule) [] (snd rule) 1)
        (filter (fun rule => String.eqb (fst rule) "b") (rules ab_grammar)).
Proof.
  apply (proj2 (proj2 (@predictions_spec (mkItem "a" [] ["b"] 0) ab_grammar 1))
           "b" []); reflexivity.
Defined.

(** ** The loop body, the table and the recognizer *)

Lemma is_final_spec (grammar : Grammar) (item : Item) :
  is_final grammar item = true
  <-> lhs item = start grammar /\ i item = 0 /\ rest item = [].
Proof.
  unfold is_final. rewrite !andb_true_iff, String.eqb_eq, Nat.eqb_eq.
  destruct (rest item); intuition congruence.
Qed.

Lemma subscript_last_snoc {A : Type} (prefix : list A) (x : A) :
  subscript_last (prefix ++ [x]) = Ok x.
Proof. unfold subscript_last. rewrite rev_unit. reflexivity. Qed.

Lemma nonempty_snoc {A : Type} (xs : list A) :
  xs <> [] -> exists prefix x, xs = prefix ++ [x].
Proof.
  intros H. destruct (exists_last H) as (prefix & x & ->). eauto.
Qed.

Section TableFacts.

Variable set_iter : State -> list Item.

(** One pass of the loop body: while the state of position [pos] is built
    with lookahead [t], an item not yet in the state whose next symbol [s]
    is in [grammar.terminals] is added to the state and leaves the worklist
    as it is.  When [s = t] its advanced form is appended to [next_items], the
    seed of position [pos + 1]; when [s <> t] nothing is appended to
    [next_items] and the item predicts nothing. *)
Theorem process_item_terminal (grammar : Grammar) (states : Table)
    (pos : nat) (t : Token) (item : Item) (items : list Item)
    (state : State) (next_items : list Item) (s : Symbol) (r : list Symbol) :
  ~ In item state ->
  rest item = s :: r ->
  contains s (terminals grammar) = true ->
  (s = t ->
     advance item = Ok (mkItem (lhs item) (done item ++ [s]) r (i item))
     /\ process_item set_iter grammar states pos t item items state next_items
        = Ok (items, state ++ [item],
              next_items ++ [mkItem (lhs item) (done item ++ [s]) r (i item)]))
  /\ (s <> t ->
        predictions item grammar pos = []
        /\ process_item set_iter grammar states pos t item items state
             next_items
           = Ok (items, state ++ [item], next_items)).
Proof.
  intros Hnew Hrest Hterm. unfold process_item, predictions.
  destruct (in_dec Item_eq_dec item state) as [Hin|_]; [contradiction|].
  rewrite Hrest, Hterm. split.
  - intros <-. rewrite String.eqb_refl. simpl.
    destruct item as [l d rs k]; simpl in *. subst rs. simpl.
    split; reflexivity.
  - intros Hne. apply String.eqb_neq in Hne. rewrite Hne. simpl.
    rewrite app_nil_r. split; reflexivity.
Qed.

Lemma for_tokens_length (fuel : nat) (grammar : Grammar)
    (tokens : list Token) :
  forall pos states next_items table,
    for_tokens set_iter fuel grammar tokens pos states next_items = Ok table ->
    length table = length states + length tokens.
Proof.
  induction tokens as [|t tokens IH]; simpl; intros pos states next table H.
  - injection H as <-. lia.
  - destruct (while_items set_iter fuel grammar states pos t next [] [])
      as [[state next']| |]; simpl in H; try discriminate.
    apply IH in H. rewrite H, length_app. simpl. lia.
Qed.

(** A table that [earley_table] returns has one state for each token and
    one for the sentinel. *)
Lemma earley_table_length (fuel : nat) (grammar : Grammar)
    (tokens : list Token) (table : Table) :
  fst (earley_table set_iter fuel grammar tokens) = Ok table ->
  length table = length tokens + 1.
Proof.
  unfold earley_table; simpl. intros H.
  apply for_tokens_length in H. rewrite H, length_app. reflexivity.
Qed.

Lemma earley_table_snoc (fuel : nat) (grammar : Grammar)
    (tokens : list Token) (table : Table) :
  fst (earley_table set_iter fuel grammar tokens) = Ok table ->
  exists prefix st, table = prefix ++ [st].
Proof.
  intros H. apply earley_table_length in H.
  apply nonempty_snoc. intros ->. simpl in H. lia.
Qed.

(** On a table that was returned, [final_item] reads its last state and
    raises nothing. *)
Lemma final_item_snoc (grammar : Grammar) (prefix : Table) (st : State) :
  final_item set_iter (prefix ++ [st]) grammar
  = Ok (find (is_final grammar) (set_iter st)).
Proof. unfold final_item. rewrite subscript_last_snoc. reflexivity. Qed.

Lemma recognizer_unfold (fuel : nat) (grammar : Grammar)
    (tokens : list Token) :
  fst (recognizer set_iter fuel grammar tokens)
  = (states <- fst (earley_table set_iter fuel grammar tokens) ;;
     found <- final_item set_iter states grammar ;;
     Ok (match found with Some _ => true | None => false end)).
Proof. reflexivity. Qed.

(** C3 fails on the code: when [earley_table] ends, the list object the
    caller passed holds one element more, the sentinel. *)
Theorem earley_table_extends_caller_tokens (fuel : nat) (grammar : Grammar)
    (tokens : list Token) :
  snd (earley_table set_iter fuel grammar tokens) = tokens ++ [""]
  /\ snd (recognizer set_iter fuel grammar tokens) = tokens ++ [""]
  /\ snd (earley_table set_iter fuel grammar tokens) <> tokens.
Proof.
  repeat split.
  unfold earley_table; simpl. intros H.
  apply (f_equal (@length Token)) in H. rewrite length_app in H.
  simpl in H. lia.
Qed.

Lemma while_items_epsilon_start (fuel : nat) (t : Token) :
  while_items set_iter (S fuel) epsilon_grammar [] 0 t
    [mkItem "s" [] [] 0] [] []
  = Raise IndexError.
Proof. reflexivity. Qed.

Lemma for_tokens_epsilon_start (fuel : nat) (tokens : list Token) :
  for_tokens set_iter (S fuel) epsilon_grammar (tokens ++ [""]) 0 []
    [mkItem "s" [] [] 0]
  = Raise IndexError.
Proof. destruct tokens; reflexivity. Qed.

(** C4 fails on the code: for the grammar [s -> (empty)] and any token
    list, [earley_table] returns no table; as soon as the loop runs it
    raises [IndexError], from [states[item.i]] in [completions]. *)
Theorem earley_table_epsilon_rule_raises (fuel : nat) (tokens : list Token) :
  fst (earley_table set_iter (S fuel) epsilon_grammar tokens)
  = Raise IndexError.
Proof. apply for_tokens_epsilon_start. Qed.

(** C2 fails on the code: the start symbol of [s -> (empty)] derives the
    empty string, and recognizing the empty token list raises
    [IndexError] where the specification has [True]. *)
Theorem recognizer_empty_input_epsilon_rule_raises (fuel : nat) :
  recognizer set_iter (S fuel) epsilon_grammar []
  = (Raise IndexError, [""]).
Proof. reflexivity. Qed.

(** C10 fails on the code: for the grammar [s -> (empty)] no amount of fuel
    lets [earley_table] return a table, so [recognizer] returns no boolean
    and [final_item] is never reached. *)
Theorem earley_table_epsilon_rule_no_table (fuel : nat)
    (tokens : list Token) :
  (forall table,
     fst (earley_table set_iter fuel epsilon_grammar tokens) <> Ok table)
  /\ (forall b,
        fst (recognizer set_iter fuel epsilon_grammar tokens) <> Ok b).
Proof.
  assert (H : forall table,
    fst (earley_table set_iter fuel epsilon_grammar tokens) <> Ok table).
  { intros table. destruct fuel as [|fuel].
    - destruct tokens; discriminate.
    - unfold earley_table; simpl fst.
      rewrite for_tokens_epsilon_start. discriminate. }
  split; [exact H|].
  intros b. rewrite recognizer_unfold.
  destruct (fst (earley_table set_iter fuel epsilon_grammar tokens)) eqn:E;
    simpl; try discriminate.
  exfalso. apply (H a). reflexivity.
Qed.

End TableFacts.

(** [b -> . 0] meets the token [0] at position 0. *)
Lemma process_item_terminal_witness :
  process_item insertion_order ab_grammar [] 0 "0" (mkItem "b" [] ["0"] 0)
    [] [mkItem "a" [] ["b"] 0] []
  = Ok ([], [mkItem "a" [] ["b"] 0; mkItem "b" [] ["0"] 0],
        [mkItem "b" ["0"] [] 0]).
Proof.
  destruct (process_item_terminal insertion_order ab_grammar [] 0 "0"
              (mkItem "b" [] ["0"] 0) [] [mkItem "a" [] ["b"] 0] [] "0" [])
    as [Hscan _].
  - simpl. intros [H|[]]. discriminate.
  - reflexivity.
  - reflexivity.
  - exact (proj2 (Hscan eq_refl)).
Defined.

(** ** What the states hold *)

Lemma list_sum_map_mul {A : Type} (f g : A -> nat) (c : nat) (l : list A) :
  (forall x, f x = g x * c) ->
  list_sum (map f l) = list_sum (map g l) * c.
Proof.
  intros H. induction l as [|a l IH]; [reflexivity|].
  change (f a + list_sum (map f l) = (g a + list_sum (map g l)) * c).
  rewrite IH, H. lia.
Qed.

Lemma firstn_length_app {A : Type} (d r : list A) :
  firstn (length d) (d ++ r) = d.
Proof.
  rewrite firstn_app, firstn_all, Nat.sub_diag. simpl. apply app_nil_r.
Qed.

Lemma skipn_length_app {A : Type} (d r : list A) :
  skipn (length d) (d ++ r) = r.
Proof. rewrite skipn_app, skipn_all, Nat.sub_diag. reflexivity. Qed.

Lemma rule_items_length (rule : Rule) (pos : nat) :
  length (rule_items rule pos) = S (length (snd rule)) * S pos.
Proof.
  unfold rule_items.
  rewrite flat_map_constant_length with (c := S pos).
  - rewrite length_seq. reflexivity.
  - intros d _. rewrite length_map, length_seq. reflexivity.
Qed.

Lemma item_space_length (grammar : Grammar) (pos : nat) :
  length (item_space grammar pos) = dotted_rules grammar * S pos.
Proof.
  unfold item_space, dotted_rules. rewrite length_flat_map.
  apply list_sum_map_mul. intros rule. apply rule_items_length.
Qed.

Lemma item_at_in_space (grammar : Grammar) (pos : nat) (item : Item) :
  item_at grammar pos item -> In item (item_space grammar pos).
Proof.
  destruct item as [l d r k]. intros (Hd & Hk & _).
  unfold dotted in Hd; simpl in *.
  apply in_flat_map. exists (l, d ++ r). split; [exact Hd|].
  apply in_flat_map. exists (length d). split.
  - apply in_seq. simpl. rewrite length_app. lia.
  - cbn [fst snd]. rewrite firstn_length_app, skipn_length_app.
    apply in_map_iff. exists k. split; [reflexivity|].
    apply in_seq. lia.
Qed.

Lemma state_at_length (grammar : Grammar) (pos : nat) (st : State) :
  state_at grammar pos st -> length st <= dotted_rules grammar * S pos.
Proof.
  intros [Hnd Hall]. rewrite <- item_space_length.
  apply NoDup_incl_length; [exact Hnd|].
  intros item Hin. apply item_at_in_space.
  rewrite Forall_forall in Hall. auto.
Qed.

Lemma item_at_initial (grammar : Grammar) (pos : nat) (rule : Rule) :
  In rule (rules grammar) -> item_at grammar pos (initial_item rule pos).
Proof.
  destruct rule as [l rhs]. intros H.
  unfold item_at, dotted; simpl. auto.
Qed.

Lemma item_at_advanced (grammar : Grammar) (j pos : nat) (item : Item) :
  item_at grammar j item -> rest item <> [] -> j < pos ->
  item_at grammar pos (advanced item).
Proof.
  destruct item as [l d [|s r] k]; intros (Hd & Hk & _) Hr Hj;
    unfold item_at, dotted in *; simpl in *; [congruence|].
  rewrite <- app_assoc. simpl. repeat split; [exact Hd|lia|lia].
Qed.

Lemma Forall_item_at_predictions (grammar : Grammar) (pos : nat)
    (item : Item) :
  Forall (item_at grammar pos) (predictions item grammar pos).
Proof.
  unfold predictions. destruct (rest item) as [|s r]; [constructor|].
  destruct (contains s (terminals grammar)); [constructor|].
  apply Forall_forall. intros x Hx.
  apply in_map_iff in Hx. destruct Hx as (rule & <- & Hin).
  apply filter_In in Hin. apply item_at_initial. tauto.
Qed.

Lemma waits_for_rest (item prev : Item) :
  waits_for item prev = true -> rest prev <> [].
Proof. unfold waits_for. destruct (rest prev); congruence. Qed.

Lemma subscript_ok {A : Type} (xs : list A) (k : nat) (x : A) :
  subscript xs k = Ok x <-> nth_error xs k = Some x.
Proof.
  unfold subscript. destruct (nth_error xs k); split; congruence.
Qed.

Lemma state_at_snoc (grammar : Grammar) (pos : nat) (st : State)
    (item : Item) :
  state_at grammar pos st -> ~ In item st -> item_at grammar pos item ->
  state_at grammar pos (st ++ [item]).
Proof.
  intros [Hnd Hall] Hnew Hitem. split.
  - apply NoDup_app; [exact Hnd|repeat constructor; simpl; tauto|].
    intros a Ha [<-|[]]. contradiction.
  - apply Forall_app. split; [exact Hall|].
    apply Forall_cons; [exact Hitem|apply Forall_nil].
Qed.

Lemma table_all_nil (P : nat -> State -> Prop) : table_all P [].
Proof. intros j st Hj. destruct j; discriminate. Qed.

Lemma table_all_snoc (P : nat -> State -> Prop) (states : Table)
    (st : State) :
  table_all P states -> P (length states) st ->
  table_all P (states ++ [st]).
Proof.
  intros Hok Hst j st' Hj.
  destruct (Nat.lt_ge_cases j (length states)) as [Hlt|Hge].
  - rewrite nth_error_app1 in Hj by exact Hlt. apply Hok, Hj.
  - rewrite nth_error_app2 in Hj by exact Hge.
    destruct (j - length states) as [|n] eqn:E; simpl in Hj.
    + injection Hj as <-. replace j with (length states) by lia. exact Hst.
    + destruct n; discriminate.
Qed.

Section Invariants.

Variable set_iter : State -> list Item.

(** Iterating over a set visits each of its elements once. *)
Hypothesis set_iter_perm : forall s, Permutation (set_iter s) s.

Variable grammar : Grammar.

Lemma completions_inv (states : Table) (item : Item) (c : list Item) :
  table_ok grammar states ->
  completions set_iter item states = Ok c ->
  Forall (item_at grammar (length states)) c.
Proof.
  intros Hok. unfold completions.
  destruct (subscript states (i item)) as [st| |] eqn:E; simpl;
    try discriminate.
  rewrite map_result_advance. intros [= <-].
  apply subscript_ok in E.
  assert (Hlt : i item < length states).
  { apply nth_error_Some. congruence. }
  destruct (Hok _ _ E) as [_ Hall]. rewrite Forall_forall in Hall.
  apply Forall_forall. intros x Hx.
  apply in_map_iff in Hx. destruct Hx as (prev & <- & Hin).
  apply filter_In in Hin. destruct Hin as [Hin Hw].
  apply item_at_advanced with (j := i item).
  - apply Hall. apply Permutation_in with (l := set_iter st); auto.
  - apply waits_for_rest with (item := item). exact Hw.
  - exact Hlt.
Qed.

Lemma process_item_inv (states : Table) (t : Token) (item : Item)
    (items : list Item) (state : State) (next_items : list Item)
    (items' : list Item) (state' : State) (next_items' : list Item) :
  table_ok grammar states ->
  item_at grammar (length states) item ->
  loop_inv grammar (length states) items state next_items ->
  process_item set_iter grammar states (length states) t item items state
    next_items = Ok (items', state', next_items') ->
  loop_inv grammar (length states) items' state' next_items'.
Proof.
  intros Hok Hitem (Hitems & Hstate & Hnext). unfold process_item.
  destruct (in_dec Item_eq_dec item state) as [Hin|Hnew].
  { intros [= <- <- <-]. repeat split; assumption || apply Hstate. }
  pose proof (state_at_snoc _ _ _ _ Hstate Hnew Hitem) as Hstate'.
  destruct (rest item) as [|s r] eqn:Hrest.
  - destruct (completions set_iter item states) as [c| |] eqn:Ec; simpl;
      try discriminate.
    intros [= <- <- <-]. split; [|split]; try assumption.
    apply Forall_app. split; [assumption|].
    apply completions_inv with (item := item); assumption.
  - destruct (contains s (terminals grammar) && String.eqb s t).
    + rewrite advance_ok. simpl. intros [= <- <- <-].
      split; [|split]; try assumption.
      apply Forall_app. split; [assumption|].
      apply Forall_cons; [|apply Forall_nil].
      apply item_at_advanced with (j := length states); [assumption| |lia].
      congruence.
    + intros [= <- <- <-]. split; [|split]; try assumption.
      apply Forall_app. split; [assumption|].
      apply Forall_item_at_predictions.
Qed.

Lemma while_items_inv (fuel : nat) (states : Table) (t : Token) :
  table_ok grammar states ->
  forall items state next_items state' next_items',
    loop_inv grammar (length states) items state next_items ->
    while_items set_iter fuel grammar states (length states) t items state
      next_items = Ok (state', next_items') ->
    state_at grammar (length states) state'
    /\ Forall (item_at grammar (S (length states))) next_items'.
Proof.
  intros Hok. induction fuel as [|fuel IH];
    intros items state next state' next' Hinv H.
  - destruct items; simpl in H; [|discriminate].
    injection H as <- <-. destruct Hinv as (_ & ? & ?). auto.
  - destruct items as [|item items]; simpl in H.
    + injection H as <- <-. destruct Hinv as (_ & ? & ?). auto.
    + destruct (process_item set_iter grammar states (length states) t
                  item items state next) as [[[items1 state1] next1]| |] eqn:E;
        simpl in H; try discriminate.
      destruct Hinv as (Hitems & Hstate & Hnext).
      inversion Hitems as [|? ? Hitem Hitems']; subst.
      apply IH in H; [exact H|].
      eapply process_item_inv; eauto. repeat split; assumption || apply Hstate.
Qed.

Lemma for_tokens_inv (fuel : nat) (tokens : list Token) :
  forall states next_items table,
    table_ok grammar states ->
    Forall (item_at grammar (length states)) next_items ->
    for_tokens set_iter fuel grammar tokens (length states) states next_items
    = Ok table ->
    table_ok grammar table.
Proof.
  induction tokens as [|t tokens IH]; simpl; intros states next table Hok Hn H.
  - injection H as <-. exact Hok.
  - destruct (while_items set_iter fuel grammar states (length states) t
                next [] []) as [[state next']| |] eqn:E;
      simpl in H; try discriminate.
    apply while_items_inv in E; [|exact Hok|].
    + destruct E as [Hstate Hnext'].
      apply (IH (states ++ [state]) next' table).
      * apply table_all_snoc; assumption.
      * rewrite length_app, Nat.add_1_r. exact Hnext'.
      * rewrite length_app, Nat.add_1_r. exact H.
    + split; [exact Hn|]. split; [|apply Forall_nil].
      split; [apply NoDup_nil|apply Forall_nil].
Qed.

(** In a table that [earley_table] returns, state [j] is duplicate-free and
    holds only dotted rules of the grammar with origin at most [j]. *)
Lemma earley_table_ok (fuel : nat) (tokens : list Token) (table : Table) :
  fst (earley_table set_iter fuel grammar tokens) = Ok table ->
  table_ok grammar table.
Proof.
  unfold earley_table; simpl. intros H.
  apply (for_tokens_inv fuel (tokens ++ [""]) []) in H;
    [exact H| |].
  - intros j st Hj. destruct j; discriminate.
  - apply Forall_forall. intros x Hx.
    apply in_map_iff in Hx. destruct Hx as (rule & <- & Hin).
    apply filter_In in Hin. apply item_at_initial. tauto.
Qed.

(** C9, amended: in a table that [earley_table] returns, the state at
    position [k] has at most [dotted_rules grammar * (k + 1)] items, where
    a rule counts [len(rhs) + 1] times, once for each place of the dot. *)
Theorem state_size_bound (fuel : nat) (tokens : list Token) (table : Table)
    (k : nat) (st : State) :
  fst (earley_table set_iter fuel grammar tokens) = Ok table ->
  nth_error table k = Some st ->
  length st <= dotted_rules grammar * (k + 1).
Proof.
  intros Htable Hk. rewrite Nat.add_1_r.
  apply state_at_length. apply (earley_table_ok _ _ _ Htable). exact Hk.
Qed.

End Invariants.

(** C9 does not hold of the code: for [s -> s s s | s s | x] and the tokens
    [x x], the state at position 2 has 10 items, more than
    [3 rules * (2 + 1)]. *)
Lemma state_size_exceeds_rules_bound :
  exists table st,
    fst (earley_table insertion_order 100 ambiguous_grammar ["x"; "x"])
    = Ok table
    /\ nth_error table 2 = Some st
    /\ length st = 10
    /\ length (rules ambiguous_grammar) * (2 + 1) = 9
    /\ ~ length st <= length (rules ambiguous_grammar) * (2 + 1).
Proof.
  eexists. eexists. split; [vm_compute; reflexivity|].
  split; [reflexivity|]. simpl. repeat split. lia.
Qed.

(** The same table: 10 items against [9 dotted rules * 3]. *)
Lemma state_size_bound_witness :
  exists table st,
    fst (earley_table insertion_order 100 ambiguous_grammar ["x"; "x"])
    = Ok table
    /\ nth_error table 2 = Some st
    /\ length st <= dotted_rules ambiguous_grammar * (2 + 1).
Proof.
  eexists. eexists. split; [vm_compute; reflexivity|].
  split; [reflexivity|].
  eapply (@state_size_bound insertion_order
            (fun s => Permutation_refl s) ambiguous_grammar 100 ["x"; "x"]).
  - vm_compute. reflexivity.
  - reflexivity.
Defined.

Section Recognition.

Variable set_iter : State -> list Item.
Hypothesis set_iter_perm : forall s, Permutation (set_iter s) s.

Variable grammar : Grammar.

Lemma find_final_some (st : State) (item : Item) :
  find (is_final grammar) (set_iter st) = Some item ->
  In item st /\ lhs item = start grammar /\ i item = 0 /\ rest item = [].
Proof.
  intros H. apply find_some in H. destruct H as [Hin Hf].
  split; [|apply is_final_spec; exact Hf].
  apply Permutation_in with (l := set_iter st); auto.
Qed.

Lemma find_final_none (st : State) (item : Item) :
  find (is_final grammar) (set_iter st) = None ->
  In item st ->
  ~ (lhs item = start grammar /\ i item = 0 /\ rest item = []).
Proof.
  intros H Hin Hf. apply is_final_spec in Hf.
  rewrite (find_none _ _ H) in Hf; [discriminate|].
  apply Permutation_in with (l := st); [|exact Hin].
  apply Permutation_sym, set_iter_perm.
Qed.

(** [recognizer] returns [True] exactly when [earley_table] returns a
    table whose last state holds an item with [lhs == grammar.start],
    [i == 0] and [rest == ()]; when the table is returned and its last state
    holds no such item, [recognizer] raises nothing and returns [False]. *)
Theorem recognizer_iff_final_item_in_last_state (fuel : nat)
    (tokens : list Token) :
  (fst (recognizer set_iter fuel grammar tokens) = Ok true
   <-> exists prefix st item,
         fst (earley_table set_iter fuel grammar tokens) = Ok (prefix ++ [st])
         /\ In item st
         /\ lhs item = start grammar /\ i item = 0 /\ rest item = [])
  /\ (forall table,
        fst (earley_table set_iter fuel grammar tokens) = Ok table ->
        (forall prefix st item,
           table = prefix ++ [st] -> In item st ->
           ~ (lhs item = start grammar /\ i item = 0 /\ rest item = [])) ->
        fst (recognizer set_iter fuel grammar tokens) = Ok false).
Proof.
  rewrite recognizer_unfold.
  destruct (fst (earley_table set_iter fuel grammar tokens))
    as [table| |] eqn:E; simpl.
  - destruct (earley_table_snoc _ _ _ _ _ E) as (prefix & st & ->).
    rewrite final_item_snoc. simpl.
    destruct (find (is_final grammar) (set_iter st)) as [item|] eqn:F.
    + apply find_final_some in F. destruct F as [Hin Hf]. split.
      * split; [|reflexivity]. intros _. exists prefix, st, item. auto.
      * intros table [= <-] Hnone. exfalso.
        apply (Hnone prefix st item eq_refl Hin Hf).
    + split.
      * split; [discriminate|].
        intros (prefix' & st' & item & [= Heq] & Hin & Hf). exfalso.
        apply app_inj_tail in Heq. destruct Heq as [_ <-].
        apply (find_final_none st item F Hin Hf).
      * reflexivity.
  - split; [|discriminate].
    split; [discriminate|]. intros (? & ? & ? & ? & _). discriminate.
  - split; [|discriminate].
    split; [discriminate|]. intros (? & ? & ? & ? & _). discriminate.
Qed.

End Recognition.

(** The grammar [a -> b], [b -> 0] on the token [0], sets visited in
    insertion order. *)
Lemma recognizer_iff_final_item_in_last_state_witness :
  fst (recognizer insertion_order 100 ab_grammar ["0"]) = Ok true
  <-> exists prefix st item,
        fst (earley_table insertion_order 100 ab_grammar ["0"])
        = Ok (prefix ++ [st])
        /\ In item st
        /\ lhs item = start ab_grammar /\ i item = 0 /\ rest item = [].
Proof.
  apply (proj1 (@recognizer_iff_final_item_in_last_state insertion_order
                  (fun s => Permutation_refl s) ab_grammar 100 ["0"])).
Defined.

(** ** Grammars without empty right-hand sides: the table is returned *)

Section Fuel.

Variable set_iter : State -> list Item.
Variable grammar : Grammar.

(** More fuel does not change a result. *)
Lemma while_items_fuel_mono (states : Table) (pos : nat) (t : Token)
    (fuel : nat) :
  forall fuel' items state next_items r,
    while_items set_iter fuel grammar states pos t items state next_items
    = Ok r ->
    fuel <= fuel' ->
    while_items set_iter fuel' grammar states pos t items state next_items
    = Ok r.
Proof.
  induction fuel as [|fuel IH]; intros fuel' items state next r H Hle.
  - destruct items; simpl in H; [|discriminate].
    destruct fuel'; exact H.
  - destruct items as [|item items]; [destruct fuel'; exact H|].
    destruct fuel' as [|fuel']; [lia|]. simpl in *.
    destruct (process_item set_iter grammar states pos t item items state
                next) as [[[items1 state1] next1]| |];
      simpl in *; try discriminate.
    apply IH; [exact H|lia].
Qed.

Lemma for_tokens_fuel_mono (fuel fuel' : nat) (tokens : list Token) :
  fuel <= fuel' ->
  forall pos states next_items table,
    for_tokens set_iter fuel grammar tokens pos states next_items = Ok table ->
    for_tokens set_iter fuel' grammar tokens pos states next_items = Ok table.
Proof.
  intros Hle. induction tokens as [|t tokens IH]; simpl;
    intros pos states next table H; [exact H|].
  destruct (while_items set_iter fuel grammar states pos t next [] [])
    as [[state next']| |] eqn:E; simpl in H; try discriminate.
  rewrite (while_items_fuel_mono _ _ _ _ _ _ _ _ _ E Hle). simpl.
  apply IH. exact H.
Qed.

(** What one pass does to the state. *)
Lemma process_item_progress (states : Table) (pos : nat) (t : Token)
    (item : Item) (items : list Item) (state : State)
    (next_items : list Item) (items' : list Item) (state' : State)
    (next_items' : list Item) :
  process_item set_iter grammar states pos t item items state next_items
  = Ok (items', state', next_items') ->
  (In item state /\ items' = items /\ state' = state
   /\ next_items' = next_items)
  \/ (~ In item state /\ state' = state ++ [item]).
Proof.
  unfold process_item.
  destruct (in_dec Item_eq_dec item state) as [Hin|Hnew].
  - intros [= <- <- <-]. left. auto.
  - intros H. right. split; [exact Hnew|].
    destruct (rest item) as [|s r].
    + destruct (completions set_iter item states); simpl in H;
        try discriminate.
      injection H as _ <- _. reflexivity.
    + destruct (contains s (terminals grammar) && String.eqb s t).
      * rewrite advance_ok in H. simpl in H.
        injection H as _ <- _. reflexivity.
      * injection H as _ <- _. reflexivity.
Qed.

End Fuel.

Section Termination.

Variable set_iter : State -> list Item.
Hypothesis set_iter_perm : forall s, Permutation (set_iter s) s.

Variable grammar : Grammar.
Hypothesis grammar_epsilon_free : epsilon_free grammar.

(** A complete item has matched something, so it did not start here. *)
Lemma complete_item_started_before (pos : nat) (item : Item) :
  item_at grammar pos item -> rest item = [] -> i item < pos.
Proof.
  intros (Hd & Hle & Hfresh) Hrest.
  destruct (Nat.eq_dec (i item) pos) as [Heq|Hne]; [|lia].
  exfalso. apply (grammar_epsilon_free _ Hd). simpl.
  rewrite Hrest, (Hfresh Heq). reflexivity.
Qed.

Lemma process_item_returns (states : Table) (t : Token) (item : Item)
    (items : list Item) (state : State) (next_items : list Item) :
  item_at grammar (length states) item ->
  exists r,
    process_item set_iter grammar states (length states) t item items state
      next_items = Ok r.
Proof.
  intros Hitem. unfold process_item.
  destruct (in_dec Item_eq_dec item state); [eauto|].
  destruct (rest item) as [|s r] eqn:Hrest.
  - pose proof (complete_item_started_before _ _ Hitem Hrest) as Hlt.
    unfold completions, subscript.
    destruct (nth_error states (i item)) as [st|] eqn:E.
    + simpl. rewrite map_result_advance. simpl. eauto.
    + apply nth_error_None in E. lia.
  - destruct (contains s (terminals grammar) && String.eqb s t).
    + rewrite advance_ok. simpl. eauto.
    + eauto.
Qed.

(** The loop at one position ends: each pass either shortens the worklist
    or adds to the state an item of the finite [item_space]. *)
Lemma while_items_terminates (states : Table) (t : Token) :
  table_ok grammar states ->
  forall m items state next_items,
    length (item_space grammar (length states)) - length state <= m ->
    loop_inv grammar (length states) items state next_items ->
    exists fuel r,
      while_items set_iter fuel grammar states (length states) t items state
        next_items = Ok r.
Proof.
  intros Hok m. induction m as [m IHm] using lt_wf_ind.
  induction items as [|item items IHitems]; intros state next Hm Hinv.
  - exists 0. eexists. reflexivity.
  - destruct Hinv as (Hitems & Hstate & Hnext).
    inversion Hitems as [|? ? Hitem Hitems']; subst.
    destruct (process_item_returns states t item items state next Hitem)
      as [[[items1 state1] next1] E].
    pose proof (process_item_inv set_iter set_iter_perm grammar _ _ _ _ _ _
                  _ _ _ Hok Hitem (conj Hitems' (conj Hstate Hnext)) E)
      as Hinv1.
    destruct (process_item_progress _ _ _ _ _ _ _ _ _ _ _ _ E)
      as [(_ & -> & -> & ->)|(Hnew & ->)].
    + destruct (IHitems state next Hm Hinv1) as (fuel & r & Hr).
      exists (S fuel), r. simpl. rewrite E. simpl. exact Hr.
    + assert (Hlen : length (state ++ [item])
                     <= length (item_space grammar (length states))).
      { rewrite item_space_length. apply state_at_length, Hinv1. }
      rewrite length_app in Hlen. simpl in Hlen.
      destruct (IHm (m - 1)) with (items := items1)
        (state := state ++ [item]) (next_items := next1)
        as (fuel & r & Hr);
        [lia|rewrite length_app; simpl; lia|exact Hinv1|].
      exists (S fuel), r. simpl. rewrite E. simpl. exact Hr.
Qed.

Lemma for_tokens_terminates (tokens : list Token) :
  forall states next_items,
    table_ok grammar states ->
    Forall (item_at grammar (length states)) next_items ->
    exists fuel table,
      for_tokens set_iter fuel grammar tokens (length states) states
        next_items = Ok table.
Proof.
  induction tokens as [|t tokens IH]; intros states next Hok Hnext.
  - exists 0, states. reflexivity.
  - assert (Hinv : loop_inv grammar (length states) next [] []).
    { split; [exact Hnext|]. split; [|apply Forall_nil].
      split; [apply NoDup_nil|apply Forall_nil]. }
    destruct (while_items_terminates states t Hok _ next [] []
                (Nat.le_refl _) Hinv) as (fuel1 & [state next'] & E).
    destruct (while_items_inv set_iter set_iter_perm grammar fuel1 states t
                Hok _ _ _ _ _ Hinv E) as [Hstate Hnext'].
    destruct (IH (states ++ [state]) next') as (fuel2 & table & H).
    + apply table_all_snoc; assumption.
    + rewrite length_app, Nat.add_1_r. exact Hnext'.
    + exists (Nat.max fuel1 fuel2), table. simpl.
      rewrite (while_items_fuel_mono set_iter grammar states (length states)
                 t fuel1 (Nat.max fuel1 fuel2) _ _ _ _ E (Nat.le_max_l _ _)).
      simpl. rewrite length_app, Nat.add_1_r in H.
      apply (for_tokens_fuel_mono set_iter grammar fuel2 _ tokens
               (Nat.le_max_r _ _)). exact H.
Qed.

(** From some amount of fuel on, the result is one and the same table. *)
Lemma earley_table_enough_fuel (tokens : list Token) :
  exists fuel0 table,
    forall fuel, fuel0 <= fuel ->
      fst (earley_table set_iter fuel grammar tokens) = Ok table.
Proof.
  destruct (for_tokens_terminates (tokens ++ [""]) []
              (map (fun rule => initial_item rule 0)
                 (filter (fun rule => String.eqb (fst rule) (start grammar))
                    (rules grammar))))
    as (fuel0 & table & H).
  - intros j st Hj. destruct j; discriminate.
  - apply Forall_forall. intros x Hx.
    apply in_map_iff in Hx. destruct Hx as (rule & <- & Hin).
    apply filter_In in Hin. apply item_at_initial. tauto.
  - exists fuel0, table. intros fuel Hle.
    apply (for_tokens_fuel_mono set_iter grammar fuel0 fuel _ Hle).
    exact H.
Qed.

(** For a grammar without empty right-hand sides [earley_table] returns:
    from some amount of fuel on, the result is a table, with one state for
    each token and one for the sentinel. *)
Theorem earley_table_returns (tokens : list Token) :
  exists fuel0,
    forall fuel, fuel0 <= fuel ->
      exists table,
        fst (earley_table set_iter fuel grammar tokens) = Ok table
        /\ length table = length tokens + 1.
Proof.
  destruct (earley_table_enough_fuel tokens) as (fuel0 & table & H).
  exists fuel0. intros fuel Hle. exists table.
  split; [exact (H fuel Hle)|].
  apply (earley_table_length _ _ _ _ _ (H fuel Hle)).
Qed.

(** Hence [recognizer] returns a boolean on every token list. *)
Theorem recognizer_returns (tokens : list Token) :
  exists fuel0,
    forall fuel, fuel0 <= fuel ->
      exists b, fst (recognizer set_iter fuel grammar tokens) = Ok b.
Proof.
  destruct (earley_table_enough_fuel tokens) as (fuel0 & table & H).
  exists fuel0. intros fuel Hle. pose proof (H fuel Hle) as E.
  destruct (earley_table_snoc _ _ _ _ _ E) as (prefix & st & ->).
  rewrite recognizer_unfold, E. simpl. rewrite final_item_snoc. simpl.
  eauto.
Qed.

End Termination.

(** ** Complete items and the states behind them *)

Section Settled.

Variable set_iter : State -> list Item.
Variable grammar : Grammar.

(** A complete item enters the state only after [states[item.i]] was read,
    and the state under construction is not yet in [states]. *)
Lemma process_item_settled (states : Table) (t : Token) (item : Item)
    (items : list Item) (state : State) (next_items : list Item)
    (items' : list Item) (state' : State) (next_items' : list Item) :
  settled (length states) state ->
  process_item set_iter grammar states (length states) t item items state
    next_items = Ok (items', state', next_items') ->
  settled (length states) state'.
Proof.
  intros Hs. unfold process_item.
  destruct (in_dec Item_eq_dec item state) as [Hin|Hnew].
  { intros [= _ <- _]. exact Hs. }
  destruct (rest item) as [|s r] eqn:Hrest.
  - unfold completions, subscript.
    destruct (nth_error states (i item)) as [st|] eqn:E; simpl;
      [|discriminate].
    rewrite map_result_advance. simpl. intros [= _ <- _].
    apply Forall_app. split; [exact Hs|].
    apply Forall_cons; [|apply Forall_nil]. intros _.
    apply nth_error_Some. congruence.
  - assert (Hadd : settled (length states) (state ++ [item])).
    { apply Forall_app. split; [exact Hs|].
      apply Forall_cons; [|apply Forall_nil]. congruence. }
    destruct (contains s (terminals grammar) && String.eqb s t).
    + rewrite advance_ok. simpl. intros [= _ <- _]. exact Hadd.
    + intros [= _ <- _]. exact Hadd.
Qed.

Lemma while_items_settled (fuel : nat) (states : Table) (t : Token) :
  forall items state next_items state' next_items',
    settled (length states) state ->
    while_items set_iter fuel grammar states (length states) t items state
      next_items = Ok (state', next_items') ->
    settled (length states) state'.
Proof.
  induction fuel as [|fuel IH]; intros items state next state' next' Hs H.
  - destruct items; simpl in H; [|discriminate].
    injection H as <- _. exact Hs.
  - destruct items as [|item items]; simpl in H.
    + injection H as <- _. exact Hs.
    + destruct (process_item set_iter grammar states (length states) t
                  item items state next) as [[[items1 state1] next1]| |] eqn:E;
        simpl in H; try discriminate.
      apply (IH _ _ _ _ _ (process_item_settled _ _ _ _ _ _ _ _ _ Hs E) H).
Qed.

Lemma for_tokens_settled (fuel : nat) (tokens : list Token) :
  forall states next_items table,
    table_all settled states ->
    for_tokens set_iter fuel grammar tokens (length states) states next_items
    = Ok table ->
    table_all settled table.
Proof.
  induction tokens as [|t tokens IH]; simpl; intros states next table Hok H.
  - injection H as <-. exact Hok.
  - destruct (while_items set_iter fuel grammar states (length states) t
                next [] []) as [[state next']| |] eqn:E;
      simpl in H; try discriminate.
    apply while_items_settled in E; [|apply Forall_nil].
    apply (IH (states ++ [state]) next' table).
    + apply table_all_snoc; assumption.
    + rewrite length_app, Nat.add_1_r. exact H.
Qed.

Lemma earley_table_settled (fuel : nat) (tokens : list Token)
    (table : Table) :
  fst (earley_table set_iter fuel grammar tokens) = Ok table ->
  table_all settled table.
Proof.
  unfold earley_table; simpl. intros H.
  apply (for_tokens_settled fuel (tokens ++ [""]) []) in H; [exact H|].
  apply table_all_nil.
Qed.

Hypothesis set_iter_perm : forall s, Permutation (set_iter s) s.

(** On the empty token list [recognizer] never returns [True], whatever the
    grammar: the only state is the one of position 0, and a complete item
    with origin 0 cannot be in it. *)
Theorem recognizer_empty_input_never_true (fuel : nat) :
  fst (recognizer set_iter fuel grammar []) <> Ok true.
Proof.
  rewrite recognizer_unfold.
  destruct (fst (earley_table set_iter fuel grammar [])) as [table| |] eqn:E;
    simpl; try discriminate.
  pose proof (earley_table_length _ _ _ _ _ E) as Hlen.
  pose proof (earley_table_settled _ _ _ E) as Hs.
  destruct (earley_table_snoc _ _ _ _ _ E) as (prefix & st & ->).
  rewrite final_item_snoc. simpl.
  destruct (find (is_final grammar) (set_iter st)) as [item|] eqn:F;
    [|discriminate].
  intros _. apply (find_final_some set_iter set_iter_perm) in F.
  destruct F as (Hin & _ & Horigin & Hrest).
  rewrite length_app in Hlen. simpl in Hlen.
  assert (Hst : settled (length prefix) st).
  { apply Hs. rewrite nth_error_app2, Nat.sub_diag by lia. reflexivity. }
  unfold settled in Hst. rewrite Forall_forall in Hst.
  specialize (Hst item Hin Hrest). lia.
Qed.

End Settled.

(** Calling [recognizer] twice on one list object gives two answers: the
    second call sees the sentinel the first one left. *)
Example recognizer_twice_on_one_list :
  let '(first, tokens) := recognizer insertion_order 100 ab_grammar ["0"] in
  let '(second, _) := recognizer insertion_order 100 ab_grammar tokens in
  first = Ok true /\ second = Ok false.
Proof. vm_compute. split; reflexivity. Qed.

(** ** The state of a position is the closure of its seed *)

Section Closure.

Variable set_iter : State -> list Item.
Hypothesis set_iter_perm : forall s, Permutation (set_iter s) s.

Variable grammar : Grammar.

Lemma not_scans_complete (t : Token) (item : Item) :
  rest item = [] -> ~ scans grammar t item.
Proof. intros H (s & r & Hr & _). congruence. Qed.

Lemma not_pushes_scanned (states : Table) (pos : nat) (item y : Item)
    (s : Symbol) (r : list Symbol) :
  rest item = s :: r -> contains s (terminals grammar) = true ->
  ~ pushes grammar states pos item y.
Proof.
  intros Hr Hc H. destruct H as [st prev H0 _ _ _|s' r' rule H0 Hc' _ _];
    congruence.
Qed.

(** What one pass does with an item that is new to the state. *)
Lemma process_item_new (states : Table) (pos : nat) (t : Token)
    (item : Item) (items : list Item) (state : State)
    (next_items : list Item) (items' : list Item) (state' : State)
    (next_items' : list Item) :
  ~ In item state ->
  process_item set_iter grammar states pos t item items state next_items
  = Ok (items', state', next_items') ->
  state' = state ++ [item]
  /\ exists pushed scanned,
       items' = items ++ pushed
       /\ next_items' = next_items ++ scanned
       /\ (forall y, In y pushed <-> pushes grammar states pos item y)
       /\ (forall y, In y scanned
                     <-> scans grammar t item /\ y = advanced item).
Proof.
  intros Hnew. unfold process_item.
  destruct (in_dec Item_eq_dec item state) as [Hin|_]; [contradiction|].
  destruct (rest item) as [|s r] eqn:Hrest.
  - unfold completions, subscript.
    destruct (nth_error states (i item)) as [st|] eqn:E; simpl;
      [|discriminate].
    rewrite map_result_advance. simpl. intros [= <- <- <-].
    split; [reflexivity|].
    exists (map advanced (filter (waits_for item) (set_iter st))), [].
    rewrite app_nil_r. split; [reflexivity|]. split; [reflexivity|].
    split; intros y; split.
    + intros Hy. apply in_map_iff in Hy. destruct Hy as (prev & <- & Hin).
      apply filter_In in Hin. destruct Hin as [Hin Hw].
      apply pushes_completion with (st := st); auto.
      apply Permutation_in with (l := set_iter st); auto.
    + intros H. destruct H as [st' prev _ Hst Hin Hw|s r rule H0 _ _ _];
        [|congruence].
      assert (st' = st) as -> by congruence.
      apply in_map, filter_In. split; [|exact Hw].
      apply Permutation_in with (l := st); [|exact Hin].
      apply Permutation_sym, set_iter_perm.
    + intros [].
    + intros [H _]. exact (not_scans_complete t item Hrest H).
  - destruct (contains s (terminals grammar)) eqn:Hc; simpl.
    + destruct (String.eqb s t) eqn:Ht.
      * rewrite advance_ok. simpl. intros [= <- <- <-].
        split; [reflexivity|]. exists [], [advanced item].
        rewrite app_nil_r. split; [reflexivity|]. split; [reflexivity|].
        split; intros y; split.
        -- intros [].
        -- intros H. exact (not_pushes_scanned _ _ _ _ _ _ Hrest Hc H).
        -- intros [<-|[]]. split; [|reflexivity].
           exists s, r. apply String.eqb_eq in Ht. auto.
        -- intros [_ ->]. left. reflexivity.
      * intros [= <- <- <-]. split; [reflexivity|].
        unfold predictions. rewrite Hrest, Hc. exists [], [].
        rewrite !app_nil_r. split; [reflexivity|]. split; [reflexivity|].
        split; intros y; split.
        -- intros [].
        -- intros H. exact (not_pushes_scanned _ _ _ _ _ _ Hrest Hc H).
        -- intros [].
        -- intros [(s' & r' & Hr' & _ & <-) _].
           rewrite Hrest in Hr'. injection Hr' as <- <-.
           rewrite String.eqb_refl in Ht. discriminate.
    + intros [= <- <- <-]. split; [reflexivity|].
      exists (predictions item grammar pos), [].
      rewrite app_nil_r. unfold predictions. rewrite Hrest, Hc.
      split; [reflexivity|]. split; [reflexivity|].
      split; intros y; split.
      * intros Hy. apply in_map_iff in Hy. destruct Hy as (rule & <- & Hin).
        apply filter_In in Hin. destruct Hin as [Hin Heq].
        apply String.eqb_eq in Heq.
        apply pushes_prediction with (s := s) (r := r); auto.
      * intros H. destruct H as [st prev H0 _ _ _|s' r' rule Hr' _ Hin Heq];
          [congruence|].
        rewrite Hrest in Hr'. injection Hr' as <- <-.
        apply in_map_iff. exists rule. split; [reflexivity|].
        apply filter_In. split; [exact Hin|].
        apply String.eqb_eq. exact Heq.
      * intros [].
      * intros [(s' & r' & Hr' & Hc' & _) _].
        rewrite Hrest in Hr'. injection Hr' as <- <-. congruence.
Qed.

Lemma process_item_closure (states : Table) (pos : nat) (t : Token)
    (seed : list Item) (item : Item) (items : list Item) (state : State)
    (next_items : list Item) (items' : list Item) (state' : State)
    (next_items' : list Item) :
  closure_inv grammar states pos t seed (item :: items) state next_items ->
  process_item set_iter grammar states pos t item items state next_items
  = Ok (items', state', next_items') ->
  closure_inv grammar states pos t seed items' state' next_items'.
Proof.
  intros (Hreach & Hnext & Hseed & Hpush & Hscan) E.
  destruct (process_item_progress _ _ _ _ _ _ _ _ _ _ _ _ E)
    as [(Hin & -> & -> & ->)|(Hnew & _)].
  - repeat split.
    + intros x [Hx|Hx]; apply Hreach; simpl; auto.
    + exact Hnext.
    + intros x Hx. destruct (Hseed x Hx) as [[<-|Hx']|Hx']; auto.
    + intros x y Hx Hxy.
      destruct (Hpush x y Hx Hxy) as [[<-|Hy]|Hy]; auto.
    + exact Hscan.
  - destruct (process_item_new _ _ _ _ _ _ _ _ _ _ Hnew E)
      as (-> & pushed & scanned & -> & -> & Hpushed & Hscanned).
    assert (Hitem : reachable grammar states pos seed item)
      by (apply Hreach; simpl; auto).
    repeat split.
    + intros x [Hx|Hx]; apply in_app_or in Hx; destruct Hx as [Hx|Hx].
      * apply Hreach. simpl. auto.
      * apply reachable_push with (x := item); [exact Hitem|].
        apply Hpushed, Hx.
      * apply Hreach. auto.
      * destruct Hx as [<-|[]]. exact Hitem.
    + intros y Hy. apply in_app_or in Hy. destruct Hy as [Hy|Hy].
      * destruct (Hnext y Hy) as (it & Hit & Hs & ->).
        exists it. split; [apply in_or_app; auto|auto].
      * apply Hscanned in Hy. destruct Hy as [Hs ->].
        exists item. split; [apply in_or_app; simpl; auto|auto].
    + intros x Hx. destruct (Hseed x Hx) as [[<-|Hx']|Hx'].
      * right. apply in_or_app. simpl. auto.
      * left. apply in_or_app. auto.
      * right. apply in_or_app. auto.
    + intros x y Hx Hxy. apply in_app_or in Hx.
      destruct Hx as [Hx|[<-|[]]].
      * destruct (Hpush x y Hx Hxy) as [[<-|Hy]|Hy].
        -- right. apply in_or_app. simpl. auto.
        -- left. apply in_or_app. auto.
        -- right. apply in_or_app. auto.
      * left. apply in_or_app. right. apply Hpushed, Hxy.
    + intros it Hit Hs. apply in_or_app. apply in_app_or in Hit.
      destruct Hit as [Hit|[<-|[]]].
      * left. apply Hscan; assumption.
      * right. apply Hscanned. auto.
Qed.

Lemma while_items_closure (fuel : nat) (states : Table) (pos : nat)
    (t : Token) (seed : list Item) :
  forall items state next_items state' next_items',
    closure_inv grammar states pos t seed items state next_items ->
    while_items set_iter fuel grammar states pos t items state next_items
    = Ok (state', next_items') ->
    closure_inv grammar states pos t seed [] state' next_items'.
Proof.
  induction fuel as [|fuel IH];
    intros items state next state' next' Hinv H.
  - destruct items; simpl in H; [|discriminate].
    injection H as <- <-. exact Hinv.
  - destruct items as [|item items]; simpl in H.
    { injection H as <- <-. exact Hinv. }
    destruct (process_item set_iter grammar states pos t item items state
                next) as [[[items1 state1] next1]| |] eqn:E;
      simpl in H; try discriminate.
    apply (IH _ _ _ _ _ (process_item_closure _ _ _ _ _ _ _ _ _ _ _ Hinv E)
             H).
Qed.

(** When the loop that starts from the seed ends, the state holds exactly
    the items reachable from the seed, and [next_items] exactly the
    advanced forms of the items of the state that the lookahead scans. *)
Lemma while_items_closure_exit (fuel : nat) (states : Table) (pos : nat)
    (t : Token) (seed : list Item) (state : State)
    (next_items : list Item) :
  while_items set_iter fuel grammar states pos t seed [] []
  = Ok (state, next_items) ->
  (forall x, In x state <-> reachable grammar states pos seed x)
  /\ (forall y, In y next_items
                <-> exists item, In item state /\ scans grammar t item
                                 /\ y = advanced item).
Proof.
  intros H. apply (while_items_closure fuel states pos t seed) in H.
  - destruct H as (Hreach & Hnext & Hseed & Hpush & Hscan). split.
    + intros x. split; [auto|].
      induction 1 as [x Hx|x y _ IHx Hxy].
      * destruct (Hseed x Hx) as [[]|Hin]. exact Hin.
      * destruct (Hpush x y IHx Hxy) as [[]|Hin]. exact Hin.
    + intros y. split; [apply Hnext|].
      intros (item & Hin & Hs & ->). apply Hscan; assumption.
  - repeat split.
    + intros x [Hx|[]]. apply reachable_seed, Hx.
    + intros y [].
    + auto.
    + intros x y [].
    + intros item [].
Qed.

(** The table grows at its end only. *)
Lemma for_tokens_extends (fuel : nat) (tokens : list Token) :
  forall pos states next_items table,
    for_tokens set_iter fuel grammar tokens pos states next_items = Ok table ->
    exists rest_states, table = states ++ rest_states.
Proof.
  induction tokens as [|t tokens IH]; simpl; intros pos states next table H.
  - injection H as <-. exists []. symmetry. apply app_nil_r.
  - destruct (while_items set_iter fuel grammar states pos t next [] [])
      as [[state next']| |]; simpl in H; try discriminate.
    apply IH in H. destruct H as [more ->].
    exists (state :: more). rewrite <- app_assoc. reflexivity.
Qed.

(** In the table built from [states] on, the first new state holds the
    seed, and each new state holds the advanced form of every item of the
    state before it that is scanned by the token between them. *)
Lemma for_tokens_scan (fuel : nat) (tokens : list Token) :
  forall states next_items table,
    for_tokens set_iter fuel grammar tokens (length states) states next_items
    = Ok table ->
    (forall st, nth_error table (length states) = Some st ->
                incl next_items st)
    /\ (forall k t st st' item,
          nth_error tokens k = Some t ->
          nth_error table (length states + k) = Some st ->
          nth_error table (S (length states + k)) = Some st' ->
          In item st -> scans grammar t item ->
          In (advanced item) st').
Proof.
  induction tokens as [|t tokens IH]; simpl; intros states next table H.
  - injection H as <-. split.
    + intros st Hst.
      assert (nth_error states (length states) = None) as Hnone
        by (apply nth_error_None; lia).
      congruence.
    + intros k t st st' item Hk. destruct k; discriminate.
  - destruct (while_items set_iter fuel grammar states (length states) t
                next [] []) as [[state next']| |] eqn:E;
      simpl in H; try discriminate.
    apply while_items_closure_exit in E. destruct E as [Hstate_iff Hnext_iff].
    assert (Hlen : length (states ++ [state]) = S (length states))
      by (rewrite length_app; simpl; lia).
    rewrite <- Hlen in H.
    destruct (for_tokens_extends _ _ _ _ _ _ H) as [more Htable].
    destruct (IH _ _ _ H) as [IHseed IHscan]. rewrite Hlen in IHseed, IHscan.
    assert (Hstate : nth_error table (length states) = Some state).
    { rewrite Htable, <- app_assoc, nth_error_app2, Nat.sub_diag by lia.
      reflexivity. }
    split.
    + intros st Hst x Hx. rewrite Hstate in Hst. injection Hst as <-.
      apply Hstate_iff, reachable_seed, Hx.
    + intros k t' st st' item Hk Hst Hst' Hin Hs.
      destruct k as [|k]; simpl in Hk.
      * injection Hk as <-. rewrite Nat.add_0_r in Hst, Hst'.
        rewrite Hstate in Hst. injection Hst as <-.
        apply (IHseed st' Hst'). apply Hnext_iff. exists item. auto.
      * rewrite <- Nat.add_succ_comm in Hst, Hst'.
        apply (IHscan k t' st st' item); assumption.
Qed.

(** In a table that [earley_table] returns, an item of the state at
    position [k] whose next symbol is in [grammar.terminals] and equals
    token [k] has its advanced form in the state at position [k + 1]. *)
Theorem scanned_item_in_next_state (fuel : nat) (tokens : list Token)
    (table : Table) (k : nat) (t : Token) (st st' : State) (item : Item) :
  fst (earley_table set_iter fuel grammar tokens) = Ok table ->
  nth_error tokens k = Some t ->
  nth_error table k = Some st ->
  nth_error table (S k) = Some st' ->
  In item st -> scans grammar t item ->
  In (advanced item) st'.
Proof.
  unfold earley_table; simpl. intros H Hk Hst Hst'.
  apply (for_tokens_scan fuel (tokens ++ [""]) []) in H.
  destruct H as [_ H]. apply (H k t st st'); try assumption.
  rewrite nth_error_app1; [exact Hk|]. apply nth_error_Some. congruence.
Qed.

End Closure.

(** ** The states do not depend on the order in which sets are visited *)

Lemma Forall2_nth_error {A B : Type} (R : A -> B -> Prop) (l1 : list A)
    (l2 : list B) :
  Forall2 R l1 l2 ->
  forall j a, nth_error l1 j = Some a ->
              exists b, nth_error l2 j = Some b /\ R a b.
Proof.
  induction 1 as [|x y l1 l2 Hxy _ IH]; intros j a Hj.
  - destruct j; discriminate.
  - destruct j as [|j]; simpl in *.
    + injection Hj as <-. eauto.
    + apply IH, Hj.
Qed.

Lemma same_set_sym (a b : list Item) : same_set a b -> same_set b a.
Proof. intros H x. symmetry. apply H. Qed.

Lemma Forall2_same_set_sym (l1 l2 : Table) :
  Forall2 same_set l1 l2 -> Forall2 same_set l2 l1.
Proof.
  induction 1; constructor; [apply same_set_sym|]; assumption.
Qed.

Section OrderIndependence.

Variable grammar : Grammar.

Lemma pushes_same_set (states1 states2 : Table) (pos : nat) (x y : Item) :
  Forall2 same_set states1 states2 ->
  pushes grammar states1 pos x y -> pushes grammar states2 pos x y.
Proof.
  intros Hsame H. destruct H as [st prev Hr Hst Hin Hw|s r rule Hr Hc Hin Heq].
  - destruct (Forall2_nth_error _ _ _ Hsame _ _ Hst) as (st' & Hst' & Hss).
    apply pushes_completion with (st := st'); auto. apply Hss, Hin.
  - apply pushes_prediction with (s := s) (r := r); assumption.
Qed.

Lemma reachable_same_set (states1 states2 : Table) (pos : nat)
    (seed1 seed2 : list Item) (x : Item) :
  Forall2 same_set states1 states2 -> same_set seed1 seed2 ->
  reachable grammar states1 pos seed1 x ->
  reachable grammar states2 pos seed2 x.
Proof.
  intros Hsame Hseed. induction 1 as [x Hx|x y _ IHx Hxy].
  - apply reachable_seed, Hseed, Hx.
  - apply reachable_push with (x := x); [exact IHx|].
    apply pushes_same_set with (states1 := states1); assumption.
Qed.

Variables set_iter1 set_iter2 : State -> list Item.
Hypothesis set_iter1_perm : forall s, Permutation (set_iter1 s) s.
Hypothesis set_iter2_perm : forall s, Permutation (set_iter2 s) s.

Lemma for_tokens_same_set (fuel1 fuel2 : nat) (tokens : list Token) :
  forall states1 states2 next1 next2 table1 table2,
    Forall2 same_set states1 states2 -> same_set next1 next2 ->
    for_tokens set_iter1 fuel1 grammar tokens (length states1) states1 next1
    = Ok table1 ->
    for_tokens set_iter2 fuel2 grammar tokens (length states2) states2 next2
    = Ok table2 ->
    Forall2 same_set table1 table2.
Proof.
  induction tokens as [|t tokens IH]; simpl;
    intros states1 states2 next1 next2 table1 table2 Hsame Hnext H1 H2.
  - injection H1 as <-. injection H2 as <-. exact Hsame.
  - destruct (while_items set_iter1 fuel1 grammar states1 (length states1) t
                next1 [] []) as [[state1 next1']| |] eqn:E1;
      simpl in H1; try discriminate.
    destruct (while_items set_iter2 fuel2 grammar states2 (length states2) t
                next2 [] []) as [[state2 next2']| |] eqn:E2;
      simpl in H2; try discriminate.
    apply (while_items_closure_exit set_iter1 set_iter1_perm) in E1.
    apply (while_items_closure_exit set_iter2 set_iter2_perm) in E2.
    destruct E1 as [Hstate1 Hscan1]. destruct E2 as [Hstate2 Hscan2].
    pose proof (Forall2_length Hsame) as Hlen.
    pose proof (Forall2_same_set_sym _ _ Hsame) as Hsame'.
    assert (Hstate : same_set state1 state2).
    { intros x. rewrite Hstate1, Hstate2, <- Hlen. split.
      - apply reachable_same_set; assumption.
      - apply reachable_same_set; [assumption|apply same_set_sym, Hnext]. }
    assert (Hnext' : same_set next1' next2').
    { intros y. rewrite Hscan1, Hscan2.
      split; intros (item & Hin & Hs & ->); exists item;
        (split; [apply Hstate, Hin|auto]). }
    apply (IH (states1 ++ [state1]) (states2 ++ [state2]) next1' next2').
    + apply Forall2_app; [exact Hsame|]. constructor; [exact Hstate|].
      constructor.
    + exact Hnext'.
    + rewrite length_app, Nat.add_1_r. exact H1.
    + rewrite length_app, Nat.add_1_r. exact H2.
Qed.

Lemma Forall2_same_set_Permutation (table1 table2 : Table) :
  Forall2 same_set table1 table2 ->
  Forall (@NoDup Item) table1 -> Forall (@NoDup Item) table2 ->
  Forall2 (@Permutation Item) table1 table2.
Proof.
  induction 1 as [|st1 st2 l1 l2 Hss _ IH]; intros Hnd1 Hnd2;
    constructor.
  - inversion Hnd1; inversion Hnd2; subst.
    apply NoDup_Permutation; assumption.
  - inversion Hnd1; inversion Hnd2; subst. apply IH; assumption.
Qed.

Lemma table_ok_NoDup (table : Table) :
  table_ok grammar table -> Forall (@NoDup Item) table.
Proof.
  intros Hok. apply Forall_forall. intros st Hin.
  apply In_nth_error in Hin. destruct Hin as [j Hj].
  apply (Hok j st Hj).
Qed.

(** Two runs of [earley_table] on the same grammar and tokens that differ
    only in the order in which sets are visited (and in fuel) return, when
    both return, tables whose states hold the same items position by
    position. *)
Theorem earley_table_order_independent (fuel1 fuel2 : nat)
    (tokens : list Token) (table1 table2 : Table) :
  fst (earley_table set_iter1 fuel1 grammar tokens) = Ok table1 ->
  fst (earley_table set_iter2 fuel2 grammar tokens) = Ok table2 ->
  Forall2 (@Permutation Item) table1 table2.
Proof.
  intros H1 H2.
  pose proof (earley_table_ok _ set_iter1_perm _ _ _ _ H1) as Hok1.
  pose proof (earley_table_ok _ set_iter2_perm _ _ _ _ H2) as Hok2.
  apply Forall2_same_set_Permutation;
    [|apply table_ok_NoDup; assumption|apply table_ok_NoDup; assumption].
  unfold earley_table in H1, H2; simpl in H1, H2.
  apply (for_tokens_same_set fuel1 fuel2 (tokens ++ [""]) [] [] _ _ _ _
           (Forall2_nil _) (fun x => iff_refl _) H1 H2).
Qed.

End OrderIndependence.

(** The table of [s -> s s s | s s | x] on [x x], visiting sets in insertion
    order: state sizes 3, 6 and 10. *)
Lemma ambiguous_table_insertion_order :
  exists st0 st1 st2,
    fst (earley_table insertion_order 100 ambiguous_grammar ["x"; "x"])
    = Ok [st0; st1; st2]
    /\ length st2 = 10.
Proof.
  eexists. eexists. eexists. split; [vm_compute; reflexivity|]. reflexivity.
Qed.

(** Whatever the order in which sets are visited, the state at position 2
    of that table has 10 items. *)
Theorem ambiguous_state_size_any_order (set_iter : State -> list Item)
    (fuel : nat) (table : Table) (st : State) :
  (forall s, Permutation (set_iter s) s) ->
  fst (earley_table set_iter fuel ambiguous_grammar ["x"; "x"]) = Ok table ->
  nth_error table 2 = Some st ->
  length st = 10.
Proof.
  intros Hperm Htable Hst.
  destruct ambiguous_table_insertion_order as (st0 & st1 & st2 & H0 & Hlen).
  pose proof (earley_table_order_independent ambiguous_grammar set_iter
                insertion_order Hperm (fun s => Permutation_refl s)
                fuel 100 ["x"; "x"] table _ Htable H0) as Hall.
  destruct (Forall2_nth_error _ _ _ Hall 2 st Hst) as (st' & Hst' & Hp).
  injection Hst' as <-. rewrite (Permutation_length Hp). exact Hlen.
Qed.

(** ** Segments of the token list *)

Lemma firstn_add_skipn {A : Type} (a b : nat) (l : list A) :
  firstn (a + b) l = firstn a l ++ firstn b (skipn a l).
Proof.
  revert l. induction a as [|a IH]; intros l; [reflexivity|].
  destruct l as [|x l]; simpl.
  - rewrite firstn_nil. reflexivity.
  - rewrite IH. reflexivity.
Qed.

Lemma segment_split (tokens : list Token) (o j k : nat) :
  o <= j -> j <= k ->
  segment tokens o k = segment tokens o j ++ segment tokens j k.
Proof.
  intros Hoj Hjk. unfold segment.
  replace (k - o) with ((j - o) + (k - j)) by lia.
  rewrite firstn_add_skipn, skipn_skipn.
  replace (j - o + o) with j by lia. reflexivity.
Qed.

Lemma firstn_1_skipn {A : Type} (k : nat) (l : list A) (x : A) :
  nth_error l k = Some x -> firstn 1 (skipn k l) = [x].
Proof.
  revert l. induction k as [|k IH]; intros [|y l] H; try discriminate.
  - injection H as <-. reflexivity.
  - simpl. apply IH, H.
Qed.

Lemma segment_snoc (tokens : list Token) (o k : nat) (t : Token) :
  o <= k -> nth_error tokens k = Some t ->
  segment tokens o (S k) = segment tokens o k ++ [t].
Proof.
  intros Hok Hk. rewrite (segment_split tokens o k (S k)) by lia.
  f_equal. unfold segment. replace (S k - k) with 1 by lia.
  apply firstn_1_skipn, Hk.
Qed.

Lemma segment_same (tokens : list Token) (k : nat) : segment tokens k k = [].
Proof. unfold segment. rewrite Nat.sub_diag. reflexivity. Qed.

Lemma segment_whole (tokens : list Token) (sentinel : list Token) :
  segment (tokens ++ sentinel) 0 (length tokens) = tokens.
Proof.
  unfold segment. rewrite Nat.sub_0_r. simpl. apply firstn_length_app.
Qed.

(** ** Derivations *)

Lemma derives_app (grammar : Grammar) (alpha beta : list Symbol)
    (w1 w2 : list Token) :
  derives grammar alpha w1 -> derives grammar beta w2 ->
  derives grammar (alpha ++ beta) (w1 ++ w2).
Proof.
  intros H1 H2. induction H1 as [|s a w Hc _ IH|s rhs a u v Hin Hrhs _ _ IH];
    simpl.
  - exact H2.
  - apply derives_terminal; assumption.
  - rewrite <- app_assoc. apply derives_rule with (rhs := rhs); assumption.
Qed.

Lemma derives_symbol (grammar : Grammar) (s : Symbol) (rhs : list Symbol)
    (w : list Token) :
  In (s, rhs) (rules grammar) -> derives grammar rhs w ->
  derives grammar [s] w.
Proof.
  intros Hin H. rewrite <- (app_nil_r w).
  apply derives_rule with (rhs := rhs); [assumption|assumption|].
  apply derives_nil.
Qed.

Lemma derives_nonempty (grammar : Grammar) (beta : list Symbol)
    (w : list Token) :
  epsilon_free grammar -> derives grammar beta w -> beta <> [] -> w <> [].
Proof.
  intros Hfree H.
  induction H as [|s a w Hc _ _|s rhs a u v Hin _ IHrhs _ _]; intros Hne.
  - congruence.
  - discriminate.
  - intros Heq. apply app_eq_nil in Heq. destruct Heq as [Hu _].
    apply IHrhs; [|exact Hu]. apply (Hfree _ Hin).
Qed.

(** ** An induction principle for the items of a table *)

Section TableInduction.

Variable set_iter : State -> list Item.
Hypothesis set_iter_perm : forall s, Permutation (set_iter s) s.

Variable grammar : Grammar.
Variable tokens : list Token.

(** A property of items at positions that holds of initial items and
    survives the scan of a token and the completion of a parent. *)
Variable P : nat -> Item -> Prop.

Hypothesis P_initial :
  forall k rule, In rule (rules grammar) -> P k (initial_item rule k).

Hypothesis P_scan :
  forall k item s r,
    P k item -> rest item = s :: r ->
    contains s (terminals grammar) = true ->
    nth_error (tokens ++ [""]) k = Some s ->
    P (S k) (advanced item).

Hypothesis P_complete :
  forall k item prev,
    P k item -> rest item = [] -> i item < k -> P (i item) prev ->
    waits_for item prev = true ->
    P k (advanced prev).

Lemma while_items_all (fuel : nat) (states : Table) (t : Token)
    (seed : list Item) (state : State) (next_items : list Item) :
  table_all (fun j st => Forall (P j) st) states ->
  Forall (P (length states)) seed ->
  nth_error (tokens ++ [""]) (length states) = Some t ->
  while_items set_iter fuel grammar states (length states) t seed [] []
  = Ok (state, next_items) ->
  Forall (P (length states)) state
  /\ Forall (P (S (length states))) next_items.
Proof.
  intros Hstates Hseed Ht H.
  apply (while_items_closure_exit set_iter set_iter_perm) in H.
  destruct H as [Hstate Hnext]. rewrite Forall_forall in Hseed.
  assert (Hall : forall x, In x state -> P (length states) x).
  { intros x Hx. apply Hstate in Hx.
    induction Hx as [x Hx|x y _ IHx Hxy]; [auto|].
    destruct Hxy as [st prev Hrest Hst Hprev Hw|s r rule _ _ Hin _].
    - apply (P_complete (length states) x prev); auto.
      + apply nth_error_Some. congruence.
      + pose proof (Hstates _ _ Hst) as Hall. simpl in Hall.
        rewrite Forall_forall in Hall. auto.
    - apply P_initial, Hin. }
  split; apply Forall_forall; [exact Hall|].
  intros y Hy. apply Hnext in Hy.
  destruct Hy as (item & Hin & (s & r & Hrest & Hc & Hst) & ->).
  apply (P_scan (length states) item s r);
    [apply Hall, Hin|exact Hrest|exact Hc|rewrite Hst; exact Ht].
Qed.

Lemma for_tokens_all (fuel : nat) (suffix : list Token) :
  forall prefix states next_items table,
    tokens ++ [""] = prefix ++ suffix ->
    length prefix = length states ->
    table_all (fun j st => Forall (P j) st) states ->
    Forall (P (length states)) next_items ->
    for_tokens set_iter fuel grammar suffix (length states) states next_items
    = Ok table ->
    table_all (fun j st => Forall (P j) st) table.
Proof.
  induction suffix as [|t suffix IH]; simpl;
    intros prefix states next table Hsplit Hlen Hstates Hnext H.
  - injection H as <-. exact Hstates.
  - destruct (while_items set_iter fuel grammar states (length states) t
                next [] []) as [[state next']| |] eqn:E;
      simpl in H; try discriminate.
    apply while_items_all in E; [|assumption|assumption|].
    + destruct E as [Hstate Hnext'].
      apply (IH (prefix ++ [t]) (states ++ [state]) next' table).
      * rewrite <- app_assoc. exact Hsplit.
      * rewrite !length_app. simpl. lia.
      * apply table_all_snoc; assumption.
      * rewrite length_app, Nat.add_1_r. exact Hnext'.
      * rewrite length_app, Nat.add_1_r. exact H.
    + rewrite Hsplit, <- Hlen, nth_error_app2, Nat.sub_diag by lia.
      reflexivity.
Qed.

Lemma earley_table_all (fuel : nat) (table : Table) :
  fst (earley_table set_iter fuel grammar tokens) = Ok table ->
  table_all (fun j st => Forall (P j) st) table.
Proof.
  unfold earley_table; simpl. intros H.
  apply (for_tokens_all fuel (tokens ++ [""]) [] [] _ table) in H;
    [exact H|reflexivity|reflexivity|apply table_all_nil|].
  apply Forall_forall. intros x Hx.
  apply in_map_iff in Hx. destruct Hx as (rule & <- & Hin).
  apply filter_In in Hin. apply P_initial. tauto.
Qed.

End TableInduction.

(** ** Soundness: what is recognized is in the language *)

Section Soundness.

Variable set_iter : State -> list Item.
Hypothesis set_iter_perm : forall s, Permutation (set_iter s) s.

Variable grammar : Grammar.
Variable tokens : list Token.

Lemma item_sound_initial (k : nat) (rule : Rule) :
  In rule (rules grammar) ->
  item_sound grammar (tokens ++ [""]) k (initial_item rule k).
Proof.
  destruct rule as [l rhs]. intros Hin.
  unfold item_sound, dotted; simpl. repeat split; [exact Hin|lia|].
  rewrite segment_same. apply derives_nil.
Qed.

Lemma item_sound_scan (k : nat) (item : Item) (s : Symbol)
    (r : list Symbol) :
  item_sound grammar (tokens ++ [""]) k item ->
  rest item = s :: r ->
  contains s (terminals grammar) = true ->
  nth_error (tokens ++ [""]) k = Some s ->
  item_sound grammar (tokens ++ [""]) (S k) (advanced item).
Proof.
  destruct item as [l d rs o]. unfold item_sound, dotted; simpl.
  intros (Hd & Hle & Hder) -> Hc Hk. simpl.
  rewrite <- app_assoc. repeat split; [exact Hd|lia|].
  rewrite (segment_snoc _ o k s Hle Hk).
  apply derives_app; [exact Hder|].
  apply derives_terminal; [exact Hc|apply derives_nil].
Qed.

Lemma item_sound_complete (k : nat) (item prev : Item) :
  item_sound grammar (tokens ++ [""]) k item ->
  rest item = [] -> i item < k ->
  item_sound grammar (tokens ++ [""]) (i item) prev ->
  waits_for item prev = true ->
  item_sound grammar (tokens ++ [""]) k (advanced prev).
Proof.
  destruct item as [l d rs j]. destruct prev as [l' d' rs' o].
  unfold item_sound, dotted, waits_for; simpl.
  intros (Hd & _ & Hder) -> Hlt (Hd' & Hle' & Hder') Hw.
  destruct rs' as [|s r]; [discriminate|].
  apply String.eqb_eq in Hw. subst s. simpl.
  rewrite <- app_assoc. repeat split; [exact Hd'|lia|].
  rewrite (segment_split _ o j k) by lia.
  apply derives_app; [exact Hder'|].
  apply derives_symbol with (rhs := d); [|exact Hder].
  rewrite app_nil_r in Hd. exact Hd.
Qed.

Lemma table_items_sound (fuel : nat) (table : Table) :
  fst (earley_table set_iter fuel grammar tokens) = Ok table ->
  table_all (fun k st => Forall (item_sound grammar (tokens ++ [""]) k) st)
    table.
Proof.
  apply (earley_table_all set_iter set_iter_perm grammar tokens
           (item_sound grammar (tokens ++ [""]))
           item_sound_initial item_sound_scan item_sound_complete).
Qed.

(** In a table that [earley_table] returns, every item of the state at
    position [k] is a rule of the grammar split in two, it started at or
    before [k], and its matched part rewrites to the tokens between its
    origin and [k]. *)
Theorem earley_table_sound (fuel : nat) (table : Table) (k : nat)
    (st : State) (item : Item) :
  fst (earley_table set_iter fuel grammar tokens) = Ok table ->
  nth_error table k = Some st -> In item st ->
  In (lhs item, done item ++ rest item) (rules grammar)
  /\ i item <= k
  /\ derives grammar (done item) (segment (tokens ++ [""]) (i item) k).
Proof.
  intros Htable Hk Hin.
  pose proof (table_items_sound fuel table Htable k st Hk) as Hall.
  simpl in Hall. rewrite Forall_forall in Hall. apply Hall, Hin.
Qed.

(** A final item in the last state of a returned table shows that the
    tokens are in the language. *)
Lemma final_item_generates (fuel : nat) (prefix : Table) (st : State)
    (item : Item) :
  fst (earley_table set_iter fuel grammar tokens) = Ok (prefix ++ [st]) ->
  In item st ->
  lhs item = start grammar -> i item = 0 -> rest item = [] ->
  generates grammar tokens.
Proof.
  intros E Hin Hlhs Horigin Hrest.
  pose proof (earley_table_length _ _ _ _ _ E) as Hlen.
  rewrite length_app in Hlen. simpl in Hlen.
  assert (Hst : nth_error (prefix ++ [st]) (length tokens) = Some st).
  { rewrite nth_error_app2 by lia.
    replace (length tokens - length prefix) with 0 by lia. reflexivity. }
  pose proof (table_items_sound fuel _ E _ _ Hst) as Hall.
  simpl in Hall. rewrite Forall_forall in Hall.
  destruct (Hall item Hin) as (Hd & _ & Hder).
  unfold dotted in Hd.
  rewrite Horigin, segment_whole in Hder. rewrite Hrest, app_nil_r in Hd.
  exists (done item). rewrite <- Hlhs. split; assumption.
Qed.

End Soundness.

(** ** Completeness: what is in the language is recognized *)

Lemma skipn_cons_inv {A : Type} (j : nat) (l : list A) (x : A)
    (tail : list A) :
  skipn j l = x :: tail -> nth_error l j = Some x /\ skipn (S j) l = tail.
Proof.
  intros H. split.
  - rewrite <- hd_error_skipn, H. reflexivity.
  - change (S j) with (1 + j). rewrite <- skipn_skipn, H. reflexivity.
Qed.

Lemma skipn_app_inv {A : Type} (j : nat) (l w tail : list A) :
  skipn j l = w ++ tail -> skipn (j + length w) l = tail.
Proof.
  intros H. rewrite Nat.add_comm, <- skipn_skipn, H.
  apply skipn_length_app.
Qed.

Section TableClosed.

Variable set_iter : State -> list Item.
Hypothesis set_iter_perm : forall s, Permutation (set_iter s) s.

Variable grammar : Grammar.

Lemma for_tokens_closed (fuel : nat) (tokens : list Token) :
  forall states next_items table,
    for_tokens set_iter fuel grammar tokens (length states) states next_items
    = Ok table ->
    forall k st x y,
      length states <= k -> nth_error table k = Some st -> In x st ->
      pushes grammar (firstn k table) k x y -> In y st.
Proof.
  induction tokens as [|t tokens IH]; simpl; intros states next table H.
  - injection H as <-. intros k st x y Hk Hst.
    assert (nth_error states k = None) by (apply nth_error_None; lia).
    congruence.
  - destruct (while_items set_iter fuel grammar states (length states) t
                next [] []) as [[state next']| |] eqn:E;
      simpl in H; try discriminate.
    apply (while_items_closure_exit set_iter set_iter_perm) in E.
    destruct E as [Hstate _].
    assert (Hlen : length (states ++ [state]) = S (length states))
      by (rewrite length_app; simpl; lia).
    rewrite <- Hlen in H.
    destruct (for_tokens_extends _ _ _ _ _ _ _ _ H) as [more Htable].
    pose proof (IH _ _ _ H) as IHclosed. rewrite Hlen in IHclosed.
    intros k st x y Hk Hst Hx Hxy.
    destruct (Nat.eq_dec k (length states)) as [->|Hne].
    + rewrite Htable, <- app_assoc in Hst, Hxy.
      rewrite nth_error_app2, Nat.sub_diag in Hst by lia.
      injection Hst as <-. rewrite firstn_length_app in Hxy.
      apply Hstate. apply reachable_push with (x := x); [|exact Hxy].
      apply Hstate, Hx.
    + apply (IHclosed k st x y); [lia|assumption..].
Qed.

Lemma table_pushes_closed (fuel : nat) (tokens : list Token)
    (table : Table) (k : nat) (st : State) (x y : Item) :
  fst (earley_table set_iter fuel grammar tokens) = Ok table ->
  nth_error table k = Some st -> In x st ->
  pushes grammar (firstn k table) k x y -> In y st.
Proof.
  unfold earley_table; simpl. intros H.
  apply (for_tokens_closed fuel (tokens ++ [""]) [] _ table H).
  simpl. lia.
Qed.

Lemma table_seed (fuel : nat) (tokens : list Token) (table : Table)
    (st : State) (rule : Rule) :
  fst (earley_table set_iter fuel grammar tokens) = Ok table ->
  nth_error table 0 = Some st -> In rule (rules grammar) ->
  fst rule = start grammar -> In (initial_item rule 0) st.
Proof.
  unfold earley_table; simpl. intros H Hst Hin Hstart.
  apply (for_tokens_scan set_iter set_iter_perm grammar fuel
           (tokens ++ [""]) [] _ table) in H.
  destruct H as [Hseed _]. apply (Hseed st Hst).
  apply in_map_iff. exists rule. split; [reflexivity|].
  apply filter_In. split; [exact Hin|].
  apply String.eqb_eq, Hstart.
Qed.

Lemma table_scanned (fuel : nat) (tokens : list Token) (table : Table)
    (k : nat) (t : Token) (st st' : State) (item : Item) :
  fst (earley_table set_iter fuel grammar tokens) = Ok table ->
  nth_error (tokens ++ [""]) k = Some t ->
  nth_error table k = Some st ->
  nth_error table (S k) = Some st' ->
  In item st -> scans grammar t item ->
  In (advanced item) st'.
Proof.
  unfold earley_table; simpl. intros H Hk Hst Hst'.
  apply (for_tokens_scan set_iter set_iter_perm grammar fuel
           (tokens ++ [""]) [] _ table) in H.
  destruct H as [_ H]. apply (H k t st st'); assumption.
Qed.

(** In a table that [earley_table] returns, the state at position 0 holds
    the initial item of every rule of the start symbol, and the state at
    each position [k] is closed: for an item of the state, it holds the
    initial items of the rules of its next symbol, when
    [grammar.terminals] does not contain that symbol, and, when the item
    is complete, the advanced form of every item of the state at its
    origin that waits for its left-hand side. *)
Theorem earley_table_closed (fuel : nat) (tokens : list Token)
    (table : Table) :
  fst (earley_table set_iter fuel grammar tokens) = Ok table ->
  (forall st rule,
     nth_error table 0 = Some st -> In rule (rules grammar) ->
     fst rule = start grammar -> In (initial_item rule 0) st)
  /\ (forall k st item s r rule,
        nth_error table k = Some st -> In item st ->
        rest item = s :: r -> contains s (terminals grammar) = false ->
        In rule (rules grammar) -> fst rule = s ->
        In (initial_item rule k) st)
  /\ (forall k st item st' prev,
        nth_error table k = Some st -> In item st -> rest item = [] ->
        nth_error table (i item) = Some st' -> In prev st' ->
        waits_for item prev = true ->
        In (advanced prev) st).
Proof.
  intros H. split; [|split].
  - intros st rule. apply (table_seed fuel tokens table st rule H).
  - intros k st item s r rule Hst Hin Hrest Hc Hrule Hs.
    apply (table_pushes_closed fuel tokens table k st item _ H Hst Hin).
    apply pushes_prediction with (s := s) (r := r); assumption.
  - intros k st item st' prev Hst Hin Hrest Hst' Hprev Hw.
    pose proof (earley_table_settled set_iter grammar fuel tokens table H
                  k st Hst) as Hs.
    unfold settled in Hs. rewrite Forall_forall in Hs.
    specialize (Hs item Hin Hrest).
    apply (table_pushes_closed fuel tokens table k st item _ H Hst Hin).
    apply pushes_completion with (st := st'); try assumption.
    rewrite nth_error_firstn.
    apply Nat.ltb_lt in Hs. rewrite Hs. exact Hst'.
Qed.

End TableClosed.

Section Completeness.

Variable set_iter : State -> list Item.
Hypothesis set_iter_perm : forall s, Permutation (set_iter s) s.

Variable grammar : Grammar.
Hypothesis grammar_epsilon_free : epsilon_free grammar.
Hypothesis grammar_rules_nonterminal : rules_nonterminal grammar.

Variable tokens : list Token.
Variable fuel : nat.
Variable table : Table.
Hypothesis table_returned :
  fst (earley_table set_iter fuel grammar tokens) = Ok table.

Lemma table_state (k : nat) :
  k <= length tokens -> exists st, nth_error table k = Some st.
Proof.
  intros Hk. pose proof (earley_table_length _ _ _ _ _ table_returned).
  destruct (nth_error table k) as [st|] eqn:E; [eauto|].
  apply nth_error_None in E. lia.
Qed.

(** An item of the state at position [j] whose next symbols [beta] rewrite
    to the tokens [w] that follow position [j] is, with the dot moved over
    [beta], in the state at position [j + len(w)]. *)
Lemma derives_moves_dot (beta : list Symbol) (w : list Token) :
  derives grammar beta w ->
  forall l d gamma o j st post,
    nth_error table j = Some st ->
    In (mkItem l d (beta ++ gamma) o) st ->
    skipn j tokens = w ++ post ->
    exists st',
      nth_error table (j + length w) = Some st'
      /\ In (mkItem l (d ++ beta) gamma o) st'.
Proof.
  induction 1 as [|s beta w Hc _ IH|s rhs beta w1 w2 Hrule Hrhs IHrhs _ IH];
    intros l d gamma o j st post Hst Hin Hskip.
  - exists st. simpl. rewrite Nat.add_0_r, app_nil_r. auto.
  - simpl in Hskip. apply skipn_cons_inv in Hskip.
    destruct Hskip as [Hj Hskip].
    assert (Hlt : j < length tokens) by (apply nth_error_Some; congruence).
    destruct (table_state (S j) Hlt) as [st1 Hst1].
    assert (Hadv : In (mkItem l (d ++ [s]) (beta ++ gamma) o) st1).
    { apply (table_scanned set_iter set_iter_perm grammar fuel tokens table
               j s st st1 (mkItem l d ((s :: beta) ++ gamma) o));
        try assumption.
      - rewrite nth_error_app1 by exact Hlt. exact Hj.
      - exists s, (beta ++ gamma). auto. }
    destruct (IH l (d ++ [s]) gamma o (S j) st1 post Hst1 Hadv Hskip)
      as (st' & Hst' & Hin').
    exists st'. simpl. rewrite <- Nat.add_succ_comm, <- app_assoc in *.
    auto.
  - assert (Hpred : In (mkItem s [] (rhs ++ []) j) st).
    { rewrite app_nil_r.
      apply (table_pushes_closed set_iter set_iter_perm grammar fuel tokens
               table j st _ (initial_item (s, rhs) j) table_returned Hst Hin).
      apply pushes_prediction with (s := s) (r := beta ++ gamma);
        [reflexivity| |exact Hrule|reflexivity].
      apply (grammar_rules_nonterminal _ Hrule). }
    rewrite <- app_assoc in Hskip.
    destruct (IHrhs s [] [] j j st (w2 ++ post) Hst Hpred Hskip)
      as (st1 & Hst1 & Hdone).
    simpl in Hdone.
    assert (Hw1 : w1 <> []).
    { apply (derives_nonempty grammar rhs w1 grammar_epsilon_free Hrhs).
      apply (grammar_epsilon_free _ Hrule). }
    assert (Hlt : j < j + length w1).
    { destruct w1; [congruence|simpl; lia]. }
    assert (Hadv : In (mkItem l (d ++ [s]) (beta ++ gamma) o) st1).
    { apply (table_pushes_closed set_iter set_iter_perm grammar fuel tokens
               table (j + length w1) st1 _
               (advanced (mkItem l d ((s :: beta) ++ gamma) o))
               table_returned Hst1 Hdone).
      apply pushes_completion with (st := st); simpl.
      - reflexivity.
      - rewrite nth_error_firstn.
        apply Nat.ltb_lt in Hlt. rewrite Hlt. exact Hst.
      - exact Hin.
      - unfold waits_for. simpl. apply String.eqb_refl. }
    apply skipn_app_inv in Hskip.
    destruct (IH l (d ++ [s]) gamma o (j + length w1) st1 post Hst1 Hadv
                Hskip) as (st' & Hst' & Hin').
    exists st'. rewrite length_app, Nat.add_assoc.
    rewrite <- app_assoc in Hin'. auto.
Qed.

(** When the tokens are in the language, the last state of the table holds
    a rule of the start symbol, fully matched, with origin 0. *)
Lemma generated_final_item :
  generates grammar tokens ->
  exists prefix st item,
    table = prefix ++ [st] /\ In item st
    /\ lhs item = start grammar /\ i item = 0 /\ rest item = [].
Proof.
  intros (rhs & Hrule & Hder).
  destruct (earley_table_snoc _ _ _ _ _ table_returned)
    as (prefix & st & Heq).
  pose proof (earley_table_length _ _ _ _ _ table_returned) as Hlen.
  destruct (table_state 0 (Nat.le_0_l _)) as [st0 Hst0].
  assert (Hseed : In (mkItem (start grammar) [] (rhs ++ []) 0) st0).
  { rewrite app_nil_r.
    apply (table_seed set_iter set_iter_perm grammar fuel tokens table st0
             (start grammar, rhs) table_returned Hst0 Hrule eq_refl). }
  destruct (derives_moves_dot rhs tokens Hder (start grammar) [] [] 0 0 st0
              [] Hst0 Hseed) as (st' & Hst' & Hin').
  { simpl. symmetry. apply app_nil_r. }
  exists prefix, st, (mkItem (start grammar) rhs [] 0).
  split; [exact Heq|]. split; [|auto].
  rewrite Heq in Hst', Hlen. rewrite length_app in Hlen. simpl in Hst', Hlen.
  rewrite nth_error_app2 in Hst' by lia.
  replace (length tokens - length prefix) with 0 in Hst' by lia.
  injection Hst' as <-. exact Hin'.
Qed.

End Completeness.

(** ** The recognizer decides the language *)

Lemma epsilon_free_not_empty (grammar : Grammar) :
  epsilon_free grammar -> ~ generates grammar [].
Proof.
  intros Hfree (rhs & Hrule & Hder).
  apply (derives_nonempty grammar rhs [] Hfree Hder); [|reflexivity].
  apply (Hfree _ Hrule).
Qed.

(** A token that a derivation produces is a symbol of the derived string
    or of the right-hand side of a rule. *)
Lemma derives_tokens (grammar : Grammar) (beta : list Symbol)
    (w : list Token) :
  derives grammar beta w ->
  forall t, In t w ->
    In t beta \/ exists rule, In rule (rules grammar) /\ In t (snd rule).
Proof.
  induction 1 as [|s beta w Hc _ IH|s rhs beta w1 w2 Hrule _ IHrhs _ IH];
    intros t Ht.
  - destruct Ht.
  - destruct Ht as [<-|Ht]; [left; left; reflexivity|].
    destruct (IH t Ht) as [Hin|Hex]; [left; right; exact Hin|right; exact Hex].
  - apply in_app_or in Ht. destruct Ht as [Ht|Ht].
    + right. destruct (IHrhs t Ht) as [Hin|Hex]; [|exact Hex].
      exists (s, rhs). auto.
    + destruct (IH t Ht) as [Hin|Hex]; [left; right; exact Hin|right; exact Hex].
Qed.

Section Correctness.

Variable set_iter : State -> list Item.
Hypothesis set_iter_perm : forall s, Permutation (set_iter s) s.

Variable grammar : Grammar.

(** On a returned table the answer is whether the last state holds a
    fully matched rule of the start symbol with origin 0. *)
Lemma recognizer_on_table (fuel : nat) (tokens : list Token)
    (prefix : Table) (st : State) :
  fst (earley_table set_iter fuel grammar tokens) = Ok (prefix ++ [st]) ->
  exists b,
    fst (recognizer set_iter fuel grammar tokens) = Ok b
    /\ (b = true
        <-> exists item,
              In item st /\ lhs item = start grammar /\ i item = 0
              /\ rest item = []).
Proof.
  intros E. rewrite recognizer_unfold, E. simpl.
  rewrite final_item_snoc. simpl.
  destruct (find (is_final grammar) (set_iter st)) as [item|] eqn:F.
  - exists true. split; [reflexivity|]. split; [|reflexivity]. intros _.
    exists item. apply (find_final_some set_iter set_iter_perm), F.
  - exists false. split; [reflexivity|]. split; [discriminate|].
    intros (item & Hin & Hf). exfalso.
    apply (find_final_none set_iter set_iter_perm grammar st item F Hin Hf).
Qed.

Lemma recognizer_true_inv (fuel : nat) (tokens : list Token) :
  fst (recognizer set_iter fuel grammar tokens) = Ok true ->
  exists prefix st item,
    fst (earley_table set_iter fuel grammar tokens) = Ok (prefix ++ [st])
    /\ In item st /\ lhs item = start grammar /\ i item = 0
    /\ rest item = [].
Proof.
  intros H.
  destruct (fst (earley_table set_iter fuel grammar tokens))
    as [table| |] eqn:E;
    try (rewrite recognizer_unfold, E in H; discriminate).
  destruct (earley_table_snoc _ _ _ _ _ E) as (prefix & st & ->).
  destruct (recognizer_on_table fuel tokens prefix st E) as (b & Hb & Hiff).
  assert (b = true) as -> by congruence.
  destruct (proj1 Hiff eq_refl) as (item & Hitem).
  exists prefix, st, item. split; [reflexivity|exact Hitem].
Qed.

(** When [recognizer] returns [True], the tokens are in the language of
    the grammar. *)
Theorem recognizer_sound (fuel : nat) (tokens : list Token) :
  fst (recognizer set_iter fuel grammar tokens) = Ok true ->
  generates grammar tokens.
Proof.
  intros H.
  destruct (recognizer_true_inv fuel tokens H)
    as (prefix & st & item & E & Hin & Hlhs & Horigin & Hrest).
  apply (final_item_generates set_iter set_iter_perm grammar tokens fuel
           prefix st item); assumption.
Qed.

(** For a grammar without empty right-hand sides, none of whose rules is
    headed by a symbol of [grammar.terminals], [recognizer] returns [True]
    on every token list of the language. *)
Theorem recognizer_complete (tokens : list Token) :
  epsilon_free grammar -> rules_nonterminal grammar ->
  generates grammar tokens ->
  exists fuel0,
    forall fuel, fuel0 <= fuel ->
      fst (recognizer set_iter fuel grammar tokens) = Ok true.
Proof.
  intros Hfree Hnt Hgen.
  destruct (earley_table_enough_fuel set_iter set_iter_perm grammar Hfree
              tokens) as (fuel0 & table & Htable).
  exists fuel0. intros fuel Hle. pose proof (Htable fuel Hle) as E.
  destruct (generated_final_item set_iter set_iter_perm grammar Hfree Hnt
              tokens fuel table E Hgen) as (prefix & st & item & -> & Hitem).
  destruct (recognizer_on_table fuel tokens prefix st E) as (b & Hb & Hiff).
  rewrite Hb. f_equal. apply Hiff. exists item. exact Hitem.
Qed.

(** For a grammar without empty right-hand sides, [recognizer] returns
    [False] on every token list that is not in the language. *)
Theorem recognizer_rejects (tokens : list Token) :
  epsilon_free grammar ->
  ~ generates grammar tokens ->
  exists fuel0,
    forall fuel, fuel0 <= fuel ->
      fst (recognizer set_iter fuel grammar tokens) = Ok false.
Proof.
  intros Hfree Hnot.
  destruct (earley_table_enough_fuel set_iter set_iter_perm grammar Hfree
              tokens) as (fuel0 & table & Htable).
  exists fuel0. intros fuel Hle. pose proof (Htable fuel Hle) as E.
  destruct (earley_table_snoc _ _ _ _ _ E) as (prefix & st & ->).
  destruct (recognizer_on_table fuel tokens prefix st E) as (b & Hb & Hiff).
  rewrite Hb. f_equal. destruct b; [|reflexivity]. exfalso. apply Hnot.
  destruct (proj1 Hiff eq_refl) as (item & Hin & Hlhs & Horigin & Hrest).
  apply (final_item_generates set_iter set_iter_perm grammar tokens fuel
           prefix st item); assumption.
Qed.

(** A list that [recognizer] was called on is not accepted by a second
    call when no rule has the empty string among its symbols: the first
    call left the sentinel at its end. *)
Theorem recognizer_second_call_rejects (fuel1 fuel2 : nat)
    (tokens : list Token) :
  (forall rule, In rule (rules grammar) -> ~ In "" (snd rule)) ->
  fst (recognizer set_iter fuel2 grammar
         (snd (recognizer set_iter fuel1 grammar tokens)))
  <> Ok true.
Proof.
  intros Hrules H.
  change (snd (recognizer set_iter fuel1 grammar tokens))
    with (tokens ++ [""]) in H.
  destruct (recognizer_true_inv fuel2 (tokens ++ [""]) H)
    as (prefix & st & item & E & Hin & Hlhs & Horigin & Hrest).
  destruct (final_item_generates set_iter set_iter_perm grammar _ fuel2
              prefix st item E Hin Hlhs Horigin Hrest)
    as (rhs & Hrule & Hder).
  destruct (derives_tokens grammar rhs _ Hder "") as [Hin'|(rule & Hr & Hin')].
  - apply in_or_app. right. left. reflexivity.
  - apply (Hrules _ Hrule Hin').
  - apply (Hrules _ Hr Hin').
Qed.

End Correctness.

(** The two runs agree on the answer as well. *)
Theorem recognizer_order_independent (grammar : Grammar)
    (set_iter1 set_iter2 : State -> list Item) (fuel1 fuel2 : nat)
    (tokens : list Token) (b1 b2 : bool) :
  (forall s, Permutation (set_iter1 s) s) ->
  (forall s, Permutation (set_iter2 s) s) ->
  fst (recognizer set_iter1 fuel1 grammar tokens) = Ok b1 ->
  fst (recognizer set_iter2 fuel2 grammar tokens) = Ok b2 ->
  b1 = b2.
Proof.
  intros Hp1 Hp2 H1 H2.
  destruct (fst (earley_table set_iter1 fuel1 grammar tokens))
    as [table1| |] eqn:E1;
    try (rewrite recognizer_unfold, E1 in H1; discriminate).
  destruct (fst (earley_table set_iter2 fuel2 grammar tokens))
    as [table2| |] eqn:E2;
    try (rewrite recognizer_unfold, E2 in H2; discriminate).
  pose proof (earley_table_order_independent grammar set_iter1 set_iter2
                Hp1 Hp2 fuel1 fuel2 tokens table1 table2 E1 E2) as Hall.
  destruct (earley_table_snoc _ _ _ _ _ E1) as (p1 & st1 & ->).
  destruct (earley_table_snoc _ _ _ _ _ E2) as (p2 & st2 & ->).
  assert (Hperm : Permutation st1 st2).
  { apply Forall2_app_inv_l in Hall.
    destruct Hall as (q2 & l2 & Hq & Hl & Heq).
    inversion Hl as [|? y ? l' Hxy Hnil]; subst. inversion Hnil; subst.
    apply app_inj_tail in Heq. destruct Heq as [_ ->]. exact Hxy. }
  destruct (recognizer_on_table set_iter1 Hp1 grammar fuel1 tokens p1 st1 E1)
    as (c1 & Hc1 & Hiff1).
  destruct (recognizer_on_table set_iter2 Hp2 grammar fuel2 tokens p2 st2 E2)
    as (c2 & Hc2 & Hiff2).
  assert (c1 = b1) as -> by congruence.
  assert (c2 = b2) as -> by congruence.
  apply eq_true_iff_eq. rewrite Hiff1, Hiff2.
  split; intros (item & Hin & Hf); exists item; (split; [|exact Hf]).
  - apply (Permutation_in _ Hperm Hin).
  - apply (Permutation_in _ (Permutation_sym Hperm) Hin).
Qed.

(** ** A rule of the start symbol with an empty right-hand side *)

Section StartEpsilon.

Variable set_iter : State -> list Item.
Variable grammar : Grammar.

Lemma completions_no_states (item : Item) :
  completions set_iter item [] = Raise IndexError.
Proof. unfold completions, subscript. destruct (i item); reflexivity. Qed.

(** At position 0 a complete item on the worklist ends the loop with
    [IndexError] once the items before it are processed. *)
Lemma while_items_complete_raises (t : Token) (e : Item) :
  rest e = [] ->
  forall before after state next_items fuel,
    Forall (fun x => rest x <> []) state ->
    length before < fuel ->
    while_items set_iter fuel grammar [] 0 t (before ++ e :: after) state
      next_items = Raise IndexError.
Proof.
  intros He. induction before as [|x before IH];
    intros after state next fuel Hstate Hfuel;
    (destruct fuel as [|fuel]; [lia|]); simpl; unfold process_item.
  - destruct (in_dec Item_eq_dec e state) as [Hin|_].
    + rewrite Forall_forall in Hstate. destruct (Hstate e Hin He).
    + rewrite He, completions_no_states. reflexivity.
  - simpl in Hfuel.
    destruct (in_dec Item_eq_dec x state) as [Hin|_]; simpl.
    + apply IH; [exact Hstate|lia].
    + destruct (rest x) as [|s r] eqn:Hx.
      * rewrite completions_no_states. reflexivity.
      * assert (Hstate' : Forall (fun y => rest y <> []) (state ++ [x])).
        { apply Forall_app. split; [exact Hstate|].
          apply Forall_cons; [congruence|apply Forall_nil]. }
        destruct (contains s (terminals grammar) && String.eqb s t).
        -- rewrite advance_ok. simpl. apply IH; [exact Hstate'|lia].
        -- simpl. rewrite <- app_assoc. simpl.
           apply IH; [exact Hstate'|lia].
Qed.

(** When the start symbol has a rule with an empty right-hand side,
    [earley_table] and [recognizer] raise [IndexError] on every token list
    (with more fuel than there are rules): the initial item of that rule is
    complete at position 0 and [completions] reads [states[0]] of the
    still empty [states]. *)
Theorem start_epsilon_rule_raises (fuel : nat) (tokens : list Token) :
  In (start grammar, []) (rules grammar) ->
  length (rules grammar) < fuel ->
  fst (earley_table set_iter fuel grammar tokens) = Raise IndexError
  /\ fst (recognizer set_iter fuel grammar tokens) = Raise IndexError.
Proof.
  intros Hrule Hfuel.
  assert (E : fst (earley_table set_iter fuel grammar tokens)
              = Raise IndexError).
  { unfold earley_table; simpl.
    set (seed := map (fun rule => initial_item rule 0)
                   (filter (fun rule => String.eqb (fst rule) (start grammar))
                      (rules grammar))).
    assert (Hin : In (mkItem (start grammar) [] [] 0) seed).
    { apply in_map_iff. exists (start grammar, []). split; [reflexivity|].
      apply filter_In. split; [exact Hrule|]. apply String.eqb_refl. }
    assert (Hlen : length seed <= length (rules grammar)).
    { unfold seed. rewrite length_map. apply filter_length_le. }
    apply in_split in Hin. destruct Hin as (before & after & Hseed).
    destruct (tokens ++ [""]) as [|t rest_tokens] eqn:Et.
    - apply app_eq_nil in Et. destruct Et. discriminate.
    - simpl. rewrite Hseed.
      rewrite (while_items_complete_raises t (mkItem (start grammar) [] [] 0)
                 eq_refl before after [] [] fuel (Forall_nil _)).
      + reflexivity.
      + rewrite Hseed, length_app in Hlen. simpl in Hlen. lia. }
  split; [exact E|]. rewrite recognizer_unfold, E. reflexivity.
Qed.

End StartEpsilon.

(** ** What a returned table looks like *)

(** A table that [earley_table] returns has one state for each token and
    one for the sentinel.  The state at position [k] has no duplicates; each
    of its items is a rule of the grammar split in two, with origin at most
    [k]; an item with origin [k] has matched nothing, and a complete item
    has an origin before [k]. *)
Theorem earley_table_wellformed (set_iter : State -> list Item)
    (grammar : Grammar) (fuel : nat) (tokens : list Token) (table : Table) :
  (forall s, Permutation (set_iter s) s) ->
  fst (earley_table set_iter fuel grammar tokens) = Ok table ->
  length table = length tokens + 1
  /\ forall k st,
       nth_error table k = Some st ->
       NoDup st
       /\ forall item,
            In item st ->
            In (lhs item, done item ++ rest item) (rules grammar)
            /\ i item <= k
            /\ (i item = k -> done item = [])
            /\ (rest item = [] -> i item < k).
Proof.
  intros Hperm H. split; [apply (earley_table_length _ _ _ _ _ H)|].
  intros k st Hst.
  destruct (earley_table_ok set_iter Hperm grammar fuel tokens table H k st
              Hst) as [Hnd Hall].
  pose proof (earley_table_settled set_iter grammar fuel tokens table H k st
                Hst) as Hs.
  unfold settled in Hs. rewrite Forall_forall in Hall, Hs.
  split; [exact Hnd|]. intros item Hin.
  destruct (Hall item Hin) as (Hd & Hle & Hfresh).
  repeat split; auto.
Qed.

(** ** [completions], [final_item] and repeated [advance] *)

(** [completions] raises [IndexError] exactly when [item.i] is not an
    index of [states]; otherwise it returns, whether or not the item is
    complete, the advanced forms of the items of [states[item.i]] whose
    next symbol is [item.lhs], and nothing else. *)
Theorem completions_spec (set_iter : State -> list Item) (item : Item)
    (states : Table) :
  (forall s, Permutation (set_iter s) s) ->
  (length states <= i item ->
     completions set_iter item states = Raise IndexError)
  /\ (forall st,
        nth_error states (i item) = Some st ->
        exists c,
          completions set_iter item states = Ok c
          /\ length c <= length st
          /\ forall y,
               In y c
               <-> exists prev r,
                     In prev st /\ rest prev = lhs item :: r
                     /\ y = mkItem (lhs prev) (done prev ++ [lhs item]) r
                              (i prev)).
Proof.
  intros Hperm. unfold completions, subscript. split.
  - intros Hlen. apply nth_error_None in Hlen. rewrite Hlen. reflexivity.
  - intros st ->. simpl. rewrite map_result_advance.
    exists (map advanced (filter (waits_for item) (set_iter st))).
    split; [reflexivity|]. split.
    + rewrite length_map, <- (Permutation_length (Hperm st)).
      apply filter_length_le.
    + intros y. rewrite in_map_iff. split.
      * intros (prev & <- & Hin). apply filter_In in Hin.
        destruct Hin as [Hin Hw]. unfold waits_for in Hw.
        destruct prev as [l d [|s r] k]; simpl in Hw; [discriminate|].
        apply String.eqb_eq in Hw. subst s.
        exists (mkItem l d (lhs item :: r) k), r.
        split; [apply (Permutation_in _ (Hperm st) Hin)|]. auto.
      * intros (prev & r & Hin & Hrest & ->). exists prev. split.
        -- destruct prev as [l d rs k]; simpl in *. subst rs. reflexivity.
        -- apply filter_In. split.
           ++ apply (Permutation_in _ (Permutation_sym (Hperm st)) Hin).
           ++ unfold waits_for. rewrite Hrest. apply String.eqb_refl.
Qed.

(** [final_item] raises [IndexError] on an empty table.  On any other
    table it returns; what it returns is an item of the last state with
    [lhs == grammar.start], [i == 0] and [rest == ()], and it returns [None]
    exactly when the last state has no such item. *)
Theorem final_item_spec (set_iter : State -> list Item) (grammar : Grammar) :
  (forall s, Permutation (set_iter s) s) ->
  final_item set_iter [] grammar = Raise IndexError
  /\ forall prefix st,
       exists found,
         final_item set_iter (prefix ++ [st]) grammar = Ok found
         /\ (forall item,
               found = Some item ->
               In item st /\ lhs item = start grammar /\ i item = 0
               /\ rest item = [])
         /\ (found = None
             <-> forall item,
                   In item st ->
                   ~ (lhs item = start grammar /\ i item = 0
                      /\ rest item = [])).
Proof.
  intros Hperm. split; [reflexivity|]. intros prefix st.
  rewrite final_item_snoc. eexists. split; [reflexivity|]. split.
  - intros item F. apply (find_final_some set_iter Hperm grammar st item F).
  - split.
    + intros F item. apply (find_final_none set_iter Hperm grammar st item F).
    + intros Hnone.
      destruct (find (is_final grammar) (set_iter st)) as [item|] eqn:F;
        [|reflexivity].
      apply (find_final_some set_iter Hperm) in F. destruct F as [Hin Hf].
      destruct (Hnone item Hin Hf).
Qed.

Lemma advance_times_advanced (n : nat) :
  forall item,
    advance_times n item
    = Ok (mkItem (lhs item) (done item ++ firstn n (rest item))
            (skipn n (rest item)) (i item)).
Proof.
  induction n as [|n IH]; intros [l d r k]; simpl.
  - rewrite app_nil_r. reflexivity.
  - rewrite IH. simpl. destruct r as [|s r]; simpl.
    + rewrite firstn_nil, skipn_nil, !app_nil_r. reflexivity.
    + rewrite <- app_assoc. reflexivity.
Qed.

(** Advancing the initial item of a rule [n] times puts the dot after the
    first [n] symbols of the right-hand side; from [len(rhs)] times on the
    item is the complete one and stays as it is. *)
Theorem advance_times_initial_item (rule : Rule) (k n : nat) :
  advance_times n (initial_item rule k)
  = Ok (mkItem (fst rule) (firstn n (snd rule)) (skipn n (snd rule)) k)
  /\ (length (snd rule) <= n ->
        advance_times n (initial_item rule k)
        = Ok (mkItem (fst rule) (snd rule) [] k)).
Proof.
  destruct rule as [l rhs]. rewrite advance_times_advanced. simpl.
  split; [reflexivity|]. intros Hlen.
  rewrite firstn_all2, skipn_all2 by exact Hlen. reflexivity.
Qed.

(** ** Pretty printing *)

Lemma string_append_assoc (a b c : string) :
  ((a ++ b) ++ c = a ++ (b ++ c))%string.
Proof.
  induction a as [|ch a IH]; simpl; [reflexivity|]. rewrite IH. reflexivity.
Qed.

Lemma concat_snoc (sep : string) (x : Symbol) (l : list Symbol) :
  l <> [] ->
  String.concat sep (l ++ [x])
  = (String.concat sep l ++ sep ++ x)%string.
Proof.
  induction l as [|y l IH]; intros Hne; [congruence|].
  destruct l as [|z l]; [reflexivity|].
  change (String.concat sep ((y :: z :: l) ++ [x]))
    with (y ++ sep ++ String.concat sep ((z :: l) ++ [x]))%string.
  rewrite IH by discriminate.
  change (String.concat sep (y :: z :: l))
    with (y ++ sep ++ String.concat sep (z :: l))%string.
  rewrite !string_append_assoc. reflexivity.
Qed.

(** The rendering does not determine the item: when [.] is a symbol of the
    grammar, an item with [.] just before the dot and the item with that
    [.] just after the dot are rendered alike. *)
Theorem itemstring_dot_symbol (l : Symbol) (d r : list Symbol) (k : nat) :
  d <> [] -> r <> [] ->
  mkItem l (d ++ ["."]) r k <> mkItem l d ("." :: r) k
  /\ itemstring (mkItem l (d ++ ["."]) r k)
     = itemstring (mkItem l d ("." :: r) k).
Proof.
  intros Hd Hr. split.
  - intros [= Heq _]. apply (f_equal (@length Symbol)) in Heq.
    rewrite length_app in Heq. simpl in Heq. lia.
  - unfold itemstring. cbv beta iota.
    pose proof (concat_snoc " " "." d Hd) as Hjoin.
    unfold Symbol in *. rewrite Hjoin.
    destruct r as [|x r]; [congruence|].
    change (String.concat " " ("." :: x :: r))
      with ("." ++ " " ++ String.concat " " (x :: r))%string.
    do 4 f_equal. rewrite !string_append_assoc. reflexivity.
Qed.

(** Position by position, the two tables hold the same items. *)
Theorem earley_table_states_order_independent (grammar : Grammar)
    (set_iter1 set_iter2 : State -> list Item) (fuel1 fuel2 : nat)
    (tokens : list Token) (table1 table2 : Table) :
  (forall s, Permutation (set_iter1 s) s) ->
  (forall s, Permutation (set_iter2 s) s) ->
  fst (earley_table set_iter1 fuel1 grammar tokens) = Ok table1 ->
  fst (earley_table set_iter2 fuel2 grammar tokens) = Ok table2 ->
  length table1 = length table2
  /\ forall k st1 st2,
       nth_error table1 k = Some st1 -> nth_error table2 k = Some st2 ->
       length st1 = length st2
       /\ forall item, In item st1 <-> In item st2.
Proof.
  intros Hp1 Hp2 H1 H2.
  pose proof (earley_table_order_independent grammar set_iter1 set_iter2
                Hp1 Hp2 fuel1 fuel2 tokens table1 table2 H1 H2) as Hall.
  split; [apply (Forall2_length Hall)|].
  intros k st1 st2 Hk1 Hk2.
  destruct (Forall2_nth_error _ _ _ Hall k st1 Hk1) as (st & Hst & Hperm).
  pose proof (eq_trans (eq_sym Hst) Hk2) as Heq. injection Heq as ->.
  split; [apply (Permutation_length Hperm)|].
  intros item. split.
  - apply (Permutation_in _ Hperm).
  - apply (Permutation_in _ (Permutation_sym Hperm)).
Qed.

(** ** Instances on the grammar of the module's test *)

Lemma insertion_order_perm (s : State) : Permutation (insertion_order s) s.
Proof. apply Permutation_refl. Qed.

Lemma reverse_order_perm (s : State) : Permutation (reverse_order s) s.
Proof. apply Permutation_sym, Permutation_rev. Qed.

Lemma ab_grammar_epsilon_free : epsilon_free ab_grammar.
Proof. intros rule [<-|[<-|[]]]; discriminate. Qed.

Lemma ab_grammar_rules_nonterminal : rules_nonterminal ab_grammar.
Proof. intros rule [<-|[<-|[]]]; reflexivity. Qed.

Lemma ab_grammar_generates : generates ab_grammar ["0"].
Proof.
  exists ["b"]. split; [left; reflexivity|].
  apply (derives_rule ab_grammar "b" ["0"] [] ["0"] []).
  - right. left. reflexivity.
  - apply derives_terminal; [reflexivity|apply derives_nil].
  - apply derives_nil.
Qed.

Lemma ab_table_returned :
  fst (earley_table insertion_order 100 ab_grammar ["0"]) = Ok ab_table.
Proof. vm_compute. reflexivity. Qed.

Lemma earley_table_returns_witness :
  exists fuel0,
    forall fuel, fuel0 <= fuel ->
      exists table,
        fst (earley_table insertion_order fuel ab_grammar ["0"]) = Ok table
        /\ length table = length ["0"] + 1.
Proof.
  apply (earley_table_returns insertion_order insertion_order_perm
           ab_grammar ab_grammar_epsilon_free ["0"]).
Defined.

Lemma earley_table_wellformed_witness :
  length ab_table = length ["0"] + 1
  /\ forall k st,
       nth_error ab_table k = Some st ->
       NoDup st
       /\ forall item,
            In item st ->
            In (lhs item, done item ++ rest item) (rules ab_grammar)
            /\ i item <= k
            /\ (i item = k -> done item = [])
            /\ (rest item = [] -> i item < k).
Proof.
  apply (earley_table_wellformed insertion_order ab_grammar 100 ["0"]
           ab_table insertion_order_perm ab_table_returned).
Defined.

Lemma recognizer_empty_input_never_true_witness :
  fst (recognizer insertion_order 100 ab_grammar []) = Ok false
  /\ fst (recognizer insertion_order 100 ab_grammar []) <> Ok true.
Proof.
  split; [vm_compute; reflexivity|].
  apply (recognizer_empty_input_never_true insertion_order ab_grammar
           insertion_order_perm 100).
Defined.

Lemma scanned_item_in_next_state_witness :
  In (advanced (mkItem "b" [] ["0"] 0))
     [mkItem "b" ["0"] [] 0; mkItem "a" ["b"] [] 0].
Proof.
  apply (scanned_item_in_next_state insertion_order insertion_order_perm
           ab_grammar 100 ["0"] ab_table 0 "0"
           [mkItem "a" [] ["b"] 0; mkItem "b" [] ["0"] 0]
           [mkItem "b" ["0"] [] 0; mkItem "a" ["b"] [] 0]
           (mkItem "b" [] ["0"] 0) ab_table_returned eq_refl eq_refl eq_refl).
  - right. left. reflexivity.
  - exists "0", []. repeat split.
Defined.

Lemma earley_table_closed_witness :
  (forall st rule,
     nth_error ab_table 0 = Some st -> In rule (rules ab_grammar) ->
     fst rule = start ab_grammar -> In (initial_item rule 0) st)
  /\ (forall k st item s r rule,
        nth_error ab_table k = Some st -> In item st ->
        rest item = s :: r -> contains s (terminals ab_grammar) = false ->
        In rule (rules ab_grammar) -> fst rule = s ->
        In (initial_item rule k) st)
  /\ (forall k st item st' prev,
        nth_error ab_table k = Some st -> In item st -> rest item = [] ->
        nth_error ab_table (i item) = Some st' -> In prev st' ->
        waits_for item prev = true ->
        In (advanced prev) st).
Proof.
  apply (earley_table_closed insertion_order insertion_order_perm ab_grammar
           100 ["0"] ab_table ab_table_returned).
Defined.

Lemma earley_table_sound_witness :
  In ("a", ["b"] ++ []) (rules ab_grammar)
  /\ 0 <= 1
  /\ derives ab_grammar ["b"] (segment (["0"] ++ [""]) 0 1).
Proof.
  apply (earley_table_sound insertion_order insertion_order_perm ab_grammar
           ["0"] 100 ab_table 1
           [mkItem "b" ["0"] [] 0; mkItem "a" ["b"] [] 0]
           (mkItem "a" ["b"] [] 0) ab_table_returned eq_refl).
  right. left. reflexivity.
Defined.

Lemma recognizer_sound_witness : generates ab_grammar ["0"].
Proof.
  apply (recognizer_sound insertion_order insertion_order_perm ab_grammar
           100 ["0"]).
  vm_compute. reflexivity.
Defined.

Lemma recognizer_complete_witness :
  exists fuel0,
    forall fuel, fuel0 <= fuel ->
      fst (recognizer insertion_order fuel ab_grammar ["0"]) = Ok true.
Proof.
  apply (recognizer_complete insertion_order insertion_order_perm ab_grammar
           ["0"] ab_grammar_epsilon_free ab_grammar_rules_nonterminal
           ab_grammar_generates).
Defined.

Lemma recognizer_rejects_witness :
  exists fuel0,
    forall fuel, fuel0 <= fuel ->
      fst (recognizer insertion_order fuel ab_grammar []) = Ok false.
Proof.
  apply (recognizer_rejects insertion_order insertion_order_perm ab_grammar
           [] ab_grammar_epsilon_free
           (epsilon_free_not_empty ab_grammar ab_grammar_epsilon_free)).
Defined.

Lemma recognizer_second_call_rejects_witness :
  fst (recognizer insertion_order 100 ab_grammar ["0"]) = Ok true
  /\ fst (recognizer insertion_order 100 ab_grammar
            (snd (recognizer insertion_order 100 ab_grammar ["0"])))
     <> Ok true.
Proof.
  split; [vm_compute; reflexivity|].
  apply (recognizer_second_call_rejects insertion_order insertion_order_perm
           ab_grammar 100 100 ["0"]).
  intros rule [<-|[<-|[]]]; simpl; intros [H|[]]; discriminate.
Defined.

Lemma recognizer_order_independent_witness :
  fst (recognizer insertion_order 100 simple_grammar ["0"; "+"; "1"])
  = Ok true
  /\ fst (recognizer reverse_order 100 simple_grammar ["0"; "+"; "1"])
     = Ok true
  /\ true = true.
Proof.
  assert (H1 : fst (recognizer insertion_order 100 simple_grammar
                      ["0"; "+"; "1"]) = Ok true)
    by (vm_compute; reflexivity).
  assert (H2 : fst (recognizer reverse_order 100 simple_grammar
                      ["0"; "+"; "1"]) = Ok true)
    by (vm_compute; reflexivity).
  split; [exact H1|]. split; [exact H2|].
  apply (recognizer_order_independent simple_grammar insertion_order
           reverse_order 100 100 ["0"; "+"; "1"] true true
           insertion_order_perm reverse_order_perm H1 H2).
Defined.

Lemma earley_table_states_order_independent_witness :
  exists table1 table2,
    fst (earley_table insertion_order 100 simple_grammar ["0"; "+"; "1"])
    = Ok table1
    /\ fst (earley_table reverse_order 100 simple_grammar ["0"; "+"; "1"])
       = Ok table2
    /\ table1 <> table2
    /\ length table1 = length table2
    /\ forall k st1 st2,
         nth_error table1 k = Some st1 -> nth_error table2 k = Some st2 ->
         length st1 = length st2
         /\ forall item, In item st1 <-> In item st2.
Proof.
  eexists. eexists. split; [vm_compute; reflexivity|].
  split; [vm_compute; reflexivity|].
  split; [discriminate|].
  apply (earley_table_states_order_independent simple_grammar
           insertion_order reverse_order 100 100 ["0"; "+"; "1"] _ _
           insertion_order_perm reverse_order_perm);
    vm_compute; reflexivity.
Defined.

Lemma start_epsilon_rule_raises_witness :
  fst (earley_table insertion_order 2 epsilon_grammar ["x"])
  = Raise IndexError
  /\ fst (recognizer insertion_order 2 epsilon_grammar ["x"])
     = Raise IndexError.
Proof.
  apply (start_epsilon_rule_raises insertion_order epsilon_grammar 2 ["x"]).
  - left. reflexivity.
  - simpl. lia.
Defined.

Lemma completions_spec_witness :
  completions insertion_order (mkItem "b" ["0"] [] 2) ab_table
  = Raise IndexError.
Proof.
  apply (proj1 (completions_spec insertion_order (mkItem "b" ["0"] [] 2)
                  ab_table insertion_order_perm)).
  simpl. lia.
Defined.

Lemma final_item_spec_witness :
  final_item insertion_order [] ab_grammar = Raise IndexError.
Proof.
  apply (proj1 (final_item_spec insertion_order ab_grammar
                  insertion_order_perm)).
Defined.

Lemma itemstring_dot_symbol_witness :
  mkItem "s" (["x"] ++ ["."]) ["y"] 0 <> mkItem "s" ["x"] ["."; "y"] 0
  /\ itemstring (mkItem "s" (["x"] ++ ["."]) ["y"] 0)
     = itemstring (mkItem "s" ["x"] ["."; "y"] 0).
Proof.
  apply (itemstring_dot_symbol "s" ["x"] ["y"] 0); discriminate.
Defined.

(** Completeness needs rule heads outside [grammar.terminals]: with [b]
    among the terminals the token [0] is in the language, and is not
    recognized, because [b] is then only ever compared with the lookahead. *)
Example recognizer_misses_terminal_head :
  let grammar := mkGrammar [("a", ["b"]); ("b", ["0"])] (TermStr "0b") "a" in
  generates grammar ["0"]
  /\ fst (recognizer insertion_order 100 grammar ["0"]) = Ok false.
Proof.
  split; [|vm_compute; reflexivity].
  exists ["b"]. split; [left; reflexivity|].
  apply (derives_rule _ "b" ["0"] [] ["0"] []).
  - right. left. reflexivity.
  - apply derives_terminal; [reflexivity|apply derives_nil].
  - apply derives_nil.
Qed.

(** ** A token list outside the language on which the recognizer raises *)

Lemma epsilon_grammar_language (tokens : list Token) :
  generates epsilon_grammar tokens -> tokens = [].
Proof.
  intros (rhs & Hrule & Hder). simpl in Hrule.
  destruct Hrule as [Heq|[]]. injection Heq as <-.
  inversion Hder. reflexivity.
Qed.

(** C1 fails on the code: the token list [x] is not in the language of
    [s -> (empty)], so it is a non-match, and [recognizer] does not answer
    [False]: it raises [IndexError], from [states[item.i]] in
    [completions], before a table exists for [final_item] to read. *)
Theorem recognizer_non_match_raises (set_iter : State -> list Item)
    (fuel : nat) :
  ~ generates epsilon_grammar ["x"]
  /\ fst (recognizer set_iter (S fuel) epsilon_grammar ["x"])
     = Raise IndexError
  /\ fst (recognizer set_iter fuel epsilon_grammar ["x"]) <> Ok false.
Proof.
  split; [|split].
  - intros H. apply epsilon_grammar_language in H. discriminate.
  - reflexivity.
  - destruct fuel; discriminate.
Qed.

(** ** Items that wait for a terminal, in the table *)

Lemma advanced_cons (item : Item) (s : Symbol) (r : list Symbol) :
  rest item = s :: r ->
  advanced item = mkItem (lhs item) (done item ++ [s]) r (i item).
Proof. intros H. unfold advanced. rewrite H. reflexivity. Qed.

Lemma advanced_inj (item item' : Item) (s s' : Symbol)
    (r r' : list Symbol) :
  rest item = s :: r -> rest item' = s' :: r' ->
  advanced item' = advanced item -> item' = item.
Proof.
  intros H H' Heq.
  rewrite (advanced_cons item s r H), (advanced_cons item' s' r' H') in Heq.
  destruct item as [l d rs k]. destruct item' as [l' d' rs' k'].
  simpl in *. subst rs rs'.
  injection Heq as -> Hd -> ->.
  apply app_inj_tail in Hd. destruct Hd as [-> ->]. reflexivity.
Qed.

Section TerminalItems.

Variable set_iter : State -> list Item.
Hypothesis set_iter_perm : forall s, Permutation (set_iter s) s.

Variable grammar : Grammar.

(** The loop that built the state of a position of the table, and what
    the table was built from after it. *)
Lemma for_tokens_trace (fuel : nat) (tokens : list Token) :
  forall states seed table,
    for_tokens set_iter fuel grammar tokens (length states) states seed
    = Ok table ->
    forall j t,
      nth_error tokens j = Some t ->
      exists seed_j st next_j,
        while_items set_iter fuel grammar (firstn (length states + j) table)
          (length states + j) t seed_j [] [] = Ok (st, next_j)
        /\ nth_error table (length states + j) = Some st
        /\ for_tokens set_iter fuel grammar (skipn (S j) tokens)
             (S (length states + j)) (firstn (S (length states + j)) table)
             next_j = Ok table.
Proof.
  induction tokens as [|t0 tokens IH]; intros states seed table H j t Hj.
  - destruct j; discriminate.
  - simpl in H.
    destruct (while_items set_iter fuel grammar states (length states) t0
                seed [] []) as [[state next']| |] eqn:E;
      simpl in H; try discriminate.
    assert (Hlen : length (states ++ [state]) = S (length states))
      by (rewrite length_app; simpl; lia).
    rewrite <- Hlen in H.
    destruct (for_tokens_extends _ _ _ _ _ _ _ _ H) as [more Htable].
    destruct j as [|j]; simpl in Hj.
    + injection Hj as <-. exists seed, state, next'.
      rewrite Nat.add_0_r. split; [|split].
      * rewrite Htable, <- app_assoc, firstn_length_app. exact E.
      * rewrite Htable, <- app_assoc, nth_error_app2, Nat.sub_diag by lia.
        reflexivity.
      * rewrite <- Hlen. rewrite Htable at 1.
        rewrite firstn_length_app. simpl skipn. exact H.
    + destruct (IH _ _ _ H j t Hj) as (seed_j & st & next_j & Hw & Hst & Hf).
      rewrite Hlen in Hw, Hst, Hf. rewrite Nat.add_succ_comm in Hw, Hst, Hf.
      exists seed_j, st, next_j. simpl skipn. auto.
Qed.

(** C5: take a table that [earley_table] returns, a position [k] with
    lookahead [t] (a token or the sentinel), and an item recorded in the
    state of position [k] whose next symbol [s] is in [grammar.terminals].
    The state of position [k] and a list [next_items] are what the loop of
    position [k] returns, and the table is built on from [next_items] as
    the seed of position [k + 1]; the state holds exactly the items that
    came onto the worklist, from the seed or pushed by an item.  The pass
    that records the item leaves the worklist as it is, and the item
    predicts nothing.  When [s = t]
    the advanced form of the item is in [next_items], and in the state of
    position [k + 1]; when [s <> t] it is not in [next_items]. *)
Theorem terminal_item_scanned_or_dropped (fuel : nat) (tokens : list Token)
    (table : Table) (k : nat) (t : Token) (st : State) (item : Item)
    (s : Symbol) (r : list Symbol) :
  fst (earley_table set_iter fuel grammar tokens) = Ok table ->
  nth_error (tokens ++ [""]) k = Some t ->
  nth_error table k = Some st ->
  In item st ->
  rest item = s :: r ->
  contains s (terminals grammar) = true ->
  exists seed next_items,
    while_items set_iter fuel grammar (firstn k table) k t seed [] []
    = Ok (st, next_items)
    /\ for_tokens set_iter fuel grammar (skipn (S k) (tokens ++ [""])) (S k)
         (firstn (S k) table) next_items = Ok table
    /\ (forall x, In x st <-> reachable grammar (firstn k table) k seed x)
    /\ (forall items state next,
          ~ In item state ->
          process_item set_iter grammar (firstn k table) k t item items state
            next
          = Ok (items, state ++ [item],
                if String.eqb s t
                then next ++ [mkItem (lhs item) (done item ++ [s]) r (i item)]
                else next))
    /\ predictions item grammar k = []
    /\ (s = t ->
          In (mkItem (lhs item) (done item ++ [s]) r (i item)) next_items
          /\ forall st',
               nth_error table (S k) = Some st' ->
               In (mkItem (lhs item) (done item ++ [s]) r (i item)) st')
    /\ (s <> t ->
          ~ In (mkItem (lhs item) (done item ++ [s]) r (i item)) next_items).
Proof.
  intros Htable Ht Hst Hin Hrest Hc.
  unfold earley_table in Htable; simpl in Htable.
  destruct (for_tokens_trace fuel (tokens ++ [""]) [] _ table Htable k t Ht)
    as (seed & st0 & next & Hloop & Hst0 & Hrun).
  simpl in Hloop, Hst0, Hrun.
  pose proof (eq_trans (eq_sym Hst0) Hst) as Heq. injection Heq as ->.
  exists seed, next.
  pose proof (while_items_closure_exit set_iter set_iter_perm grammar fuel _
                _ _ _ _ _ Hloop) as [Hreach Hnext].
  rewrite <- (advanced_cons item s r Hrest).
  split; [exact Hloop|]. split; [exact Hrun|]. split; [exact Hreach|].
  split; [|split; [|split]].
  - intros items state nx Hnew.
    destruct (process_item_terminal set_iter grammar (firstn k table) k t
                item items state nx s r Hnew Hrest Hc) as [Hyes Hno].
    rewrite (advanced_cons item s r Hrest).
    destruct (String.eqb s t) eqn:Hst'.
    + apply String.eqb_eq in Hst'. apply (Hyes Hst').
    + apply String.eqb_neq in Hst'. apply (Hno Hst').
  - unfold predictions. rewrite Hrest, Hc. reflexivity.
  - intros <-.
    assert (Hadv : In (advanced item) next).
    { apply Hnext. exists item. split; [exact Hin|]. split; [|reflexivity].
      exists s, r. auto. }
    split; [exact Hadv|]. intros st' Hst'.
    assert (Hlen : length (firstn (S k) table) = S k).
    { apply firstn_length_le. apply Nat.lt_le_incl.
      apply nth_error_Some. congruence. }
    assert (Hrun' : for_tokens set_iter fuel grammar
                      (skipn (S k) (tokens ++ [""]))
                      (length (firstn (S k) table)) (firstn (S k) table)
                      next = Ok table)
      by (rewrite Hlen; exact Hrun).
    destruct (for_tokens_scan set_iter set_iter_perm grammar fuel _
                (firstn (S k) table) next table Hrun') as [Hseed _].
    rewrite Hlen in Hseed. apply (Hseed st' Hst'), Hadv.
  - intros Hne Hadv. apply Hnext in Hadv.
    destruct Hadv as (item' & Hin' & (s' & r' & Hrest' & _ & Hs') & Heq).
    symmetry in Heq.
    apply (advanced_inj item item' s s' r r' Hrest Hrest') in Heq.
    subst item'. rewrite Hrest in Hrest'. injection Hrest' as <- <-.
    apply Hne, Hs'.
Qed.

End TerminalItems.

Lemma terminal_item_scanned_or_dropped_witness :
  exists seed next_items,
    while_items insertion_order 100 ab_grammar [] 0 "0" seed [] []
    = Ok ([mkItem "a" [] ["b"] 0; mkItem "b" [] ["0"] 0], next_items)
    /\ In (mkItem "b" ["0"] [] 0) next_items
    /\ forall st',
         nth_error ab_table 1 = Some st' -> In (mkItem "b" ["0"] [] 0) st'.
Proof.
  destruct (terminal_item_scanned_or_dropped insertion_order
              insertion_order_perm ab_grammar 100 ["0"] ab_table 0 "0"
              [mkItem "a" [] ["b"] 0; mkItem "b" [] ["0"] 0]
              (mkItem "b" [] ["0"] 0) "0" [] ab_table_returned eq_refl
              eq_refl (or_intror (or_introl eq_refl)) eq_refl eq_refl)
    as (seed & next_items & Hloop & _ & _ & _ & _ & Hscan & _).
  exists seed, next_items. split; [exact Hloop|]. exact (Hscan eq_refl).
Defined.

(** ** What [print_states] writes *)

Lemma has_newline_append (a b : string) :
  has_newline (a ++ b) = has_newline a || has_newline b.
Proof.
  induction a as [|c a IH]; simpl; [reflexivity|].
  rewrite IH. apply orb_assoc.
Qed.

Lemma has_newline_spaces (n : nat) : has_newline (spaces n) = false.
Proof. induction n as [|n IH]; simpl; [reflexivity|exact IH]. Qed.

Lemma has_newline_digits (d : Decimal.uint) :
  has_newline (DecimalString.NilEmpty.string_of_uint d) = false.
Proof. induction d; simpl; assumption || reflexivity. Qed.

Lemma has_newline_format_d (n : nat) : has_newline (format_d n) = false.
Proof.
  unfold format_d, DecimalString.NilZero.string_of_uint.
  destruct (Nat.to_uint n) eqn:E; try reflexivity;
    rewrite <- E; apply has_newline_digits.
Qed.

Lemma has_newline_join (l : list Symbol) :
  Forall (fun s => has_newline s = false) l ->
  has_newline (String.concat " " l) = false.
Proof.
  induction 1 as [|x l Hx Hl IH]; [reflexivity|].
  destruct l as [|y l]; [exact Hx|].
  change (String.concat " " (x :: y :: l))
    with (x ++ " " ++ String.concat " " (y :: l))%string.
  rewrite !has_newline_append, Hx, IH. reflexivity.
Qed.

Lemma has_newline_itemstring (item : Item) :
  newline_free item -> has_newline (itemstring item) = false.
Proof.
  destruct item as [l a b k]. intros (Hl & Ha & Hb). simpl in Hl, Ha, Hb.
  unfold itemstring, format_ljust12. cbv beta iota.
  rewrite !has_newline_append, has_newline_format_d, Hl, has_newline_spaces,
    (has_newline_join a Ha), (has_newline_join b Hb).
  reflexivity.
Qed.

(** The first line of a text that starts with a printed string. *)
Lemma lines_print (x text : string) :
  has_newline x = false -> lines (print x ++ text) = x :: lines text.
Proof.
  unfold print. induction x as [|c x IH]; intros Hx; [reflexivity|].
  simpl in Hx. apply orb_false_elim in Hx. destruct Hx as [Hc Hx].
  simpl. rewrite Hc. simpl in IH. rewrite (IH Hx). reflexivity.
Qed.

Lemma lines_print_items (items : list Item) (text : string) :
  Forall newline_free items ->
  lines (String.concat "" (map (fun item => print (itemstring item)) items)
         ++ text)
  = map itemstring items ++ lines text.
Proof.
  induction 1 as [|item items Hitem _ IH]; [reflexivity|].
  assert (Hcons :
    String.concat "" (map (fun it => print (itemstring it)) (item :: items))
    = (print (itemstring item)
       ++ String.concat "" (map (fun it => print (itemstring it)) items))
      %string).
  { simpl. destruct (map (fun it => print (itemstring it)) items);
      [|reflexivity].
    simpl. induction (print (itemstring item)) as [|c x IHx];
      simpl; [reflexivity|]. rewrite <- IHx. reflexivity. }
  rewrite Hcons, string_append_assoc, lines_print
    by (apply has_newline_itemstring, Hitem).
  simpl. rewrite IH. reflexivity.
Qed.

Lemma lines_print_states_from (visit : State -> list Item)
    (states : Table) :
  (forall st item, In st states -> In item (visit st) -> newline_free item) ->
  forall k,
    lines (print_states_from visit k states)
    = concat
        (map (fun p => ("=== " ++ format_d (fst p) ++ " ===")%string
                       :: map itemstring (visit (snd p)) ++ [""%string])
             (combine (seq k (length states)) states)).
Proof.
  induction states as [|st states IH]; intros Hfree k; [reflexivity|].
  cbn [print_states_from length seq combine map concat fst snd].
  rewrite lines_print.
  - rewrite lines_print_items.
    + rewrite (lines_print "" _ eq_refl), IH.
      * simpl. rewrite <- app_assoc. reflexivity.
      * intros st' item Hst'. apply Hfree. right. exact Hst'.
    + apply Forall_forall. intros item Hin.
      apply (Hfree st item (or_introl eq_refl) Hin).
  - rewrite !has_newline_append, has_newline_format_d. reflexivity.
Qed.

Lemma state_lines_length (visit : State -> list Item) (states : Table) :
  (forall s, Permutation (visit s) s) ->
  forall k,
    length
      (concat
         (map (fun p => ("=== " ++ format_d (fst p) ++ " ===")%string
                        :: map itemstring (visit (snd p)) ++ [""%string])
              (combine (seq k (length states)) states)))
    = list_sum (map (fun st => length st + 2) states).
Proof.
  intros Hperm. induction states as [|st states IH]; intros k;
    [reflexivity|].
  cbn [length seq combine map concat fst snd].
  change (list_sum (length st + 2
                    :: map (fun st => length st + 2) states))
    with (length st + 2
          + list_sum (map (fun st => length st + 2) states)).
  rewrite length_app. cbn [length].
  rewrite length_app, length_map, IH, (Permutation_length (Hperm st)).
  simpl. lia.
Qed.

(** When no symbol of an item of the table holds a newline, the text that
    [print_states] writes has exactly these lines: for each state, in the
    order of the table, the header [=== j ===] with its position [j], the
    rendering of each item in the order in which the state is visited, and
    an empty line; that is [len(state) + 2] lines for each state. *)
Theorem print_states_output (visit : State -> list Item) (states : Table) :
  (forall s, Permutation (visit s) s) ->
  (forall st item, In st states -> In item st -> newline_free item) ->
  lines (print_states visit states)
  = concat
      (map (fun p => ("=== " ++ format_d (fst p) ++ " ===")%string
                     :: map itemstring (visit (snd p)) ++ [""%string])
           (combine (seq 0 (length states)) states))
  /\ length (lines (print_states visit states))
     = list_sum (map (fun st => length st + 2) states).
Proof.
  intros Hperm Hfree.
  assert (Hlines : forall k,
    lines (print_states_from visit k states)
    = concat
        (map (fun p => ("=== " ++ format_d (fst p) ++ " ===")%string
                       :: map itemstring (visit (snd p)) ++ [""%string])
           (combine (seq k (length states)) states))).
  { apply lines_print_states_from. intros st item Hst Hin.
    apply (Hfree st item Hst).
    apply (Permutation_in _ (Hperm st) Hin). }
  split; [apply Hlines|].
  unfold print_states. rewrite Hlines.
  apply state_lines_length, Hperm.
Qed.

Lemma ab_table_newline_free (st : State) (item : Item) :
  In st ab_table -> In item st -> newline_free item.
Proof.
  intros [<-|[<-|[]]] [<-|[<-|[]]]; repeat split; repeat constructor.
Qed.

Lemma print_states_output_witness :
  lines (print_states insertion_order ab_table)
  = concat
      (map (fun p => ("=== " ++ format_d (fst p) ++ " ===")%string
                     :: map itemstring (insertion_order (snd p))
                        ++ [""%string])
           (combine (seq 0 (length ab_table)) ab_table))
  /\ length (lines (print_states insertion_order ab_table))
     = list_sum (map (fun st => length st + 2) ab_table).
Proof.
  apply (print_states_output insertion_order ab_table insertion_order_perm
           ab_table_newline_free).
Defined.

(** What [print_states] writes for the table of the test grammar. *)
Example print_states_ab_table :
  lines (print_states insertion_order ab_table)
  = ["=== 0 ===";
     "(0) a            ->  . b";
     "(0) b            ->  . 0";
     "";
     "=== 1 ===";
     "(0) b            -> 0 . ";
     "(0) a            -> b . ";
     ""]%string.
Proof. vm_compute. reflexivity. Qed.

(** With a newline in a symbol a state of one item takes four lines. *)
Example print_states_newline_symbol :
  length (lines (print_states insertion_order
                   [[mkItem (String "010"%char "a") [] [] 0]])) = 4.
Proof. vm_compute. reflexivity. Qed.
